(** * comlink2: the remote-object bridge ([src/remoteObject.ts]) and the
    sub-channel multiplexer ([createChannel] of [src/endpoint.ts])

    A shallow embedding of the two modules.  JavaScript values are an
    inductive type, the module-level variables of [remoteObject.ts] are the
    fields of a record [realm], and every function of the module that reads
    or writes them is a computation in a state-and-exception monad over that
    record.

    What the model takes from outside: the draws of [crypto.randomUUID] and
    the functions of exposed objects (their awaited outcome when called,
    their completion when constructed) are parameters; a transport's
    [postMessage] records the message and does not throw; a handler runs to
    its end, or to the [await] of a promise that is still pending, before
    anything else happens in the realm; the data of a received message is
    a structured clone, in which the bridge finds no promise.  *)

From stdpp Require Import gmap strings list pretty.

Local Open Scope string_scope.
Local Open Scope Z_scope.

(** ** JavaScript values *)

(** Numbers are the integers (ids, counters and tags are integers; fractions
    and NaN do not occur in the module).  [VError m] is an [Error] instance
    with message [m]; [VPromise p] is the [p]-th promise created by
    [createPromise] or derived by [then]; [VFun f] is a host function named
    by an index; [VProxy ep keyChain] is the proxy that
    [createProxy(keyChain)] builds inside [wrap(ep)].  An endpoint is either
    a transport handed in from outside or the result of [createChannel]. *)
#[local] Unset Elimination Schemes.
Inductive value : Type :=
| VUndefined
| VNull
| VBool (b : bool)
| VNum (n : Z)
| VStr (s : string)
| VArr (elems : list value)
| VObj (props : list (string * value))
| VError (message : string)
| VPromise (p : nat)
| VFun (f : nat)
| VProxy (ep : endpoint) (keyChain : list string)
with endpoint : Type :=
| EBase (n : nat)
| EChan (parent : endpoint) (channelName : value).
#[local] Set Elimination Schemes.

(** [typeof v] *)
Definition typeof (v : value) : string :=
  match v with
  | VUndefined => "undefined"
  | VNull => "object"
  | VBool _ => "boolean"
  | VNum _ => "number"
  | VStr _ => "string"
  | VArr _ | VObj _ | VError _ | VPromise _ => "object"
  | VFun _ | VProxy _ _ => "function"
  end.

(** ToBoolean *)
Definition truthy (v : value) : bool :=
  match v with
  | VUndefined | VNull => false
  | VBool b => b
  | VNum n => negb (n =? 0)
  | VStr s => negb (String.eqb s "")
  | _ => true
  end.

(** [a === b].  Primitives compare by value.  Two reference values are the
    same only when they are one object; the comparisons of the module put a
    string literal or a channel tag on one side, and the reference found in
    a received message is never that object, so the model answers [false]. *)
Definition strict_eq (a b : value) : bool :=
  match a, b with
  | VUndefined, VUndefined => true
  | VNull, VNull => true
  | VBool x, VBool y => Bool.eqb x y
  | VNum x, VNum y => x =? y
  | VStr x, VStr y => String.eqb x y
  | _, _ => false
  end.

Definition isArray (v : value) : bool :=
  match v with VArr _ => true | _ => false end.

Definition is_function (v : value) : bool := String.eqb (typeof v) "function".
Definition is_object (v : value) : bool := String.eqb (typeof v) "object".

(** [s.includes(needle)] *)
Fixpoint includes (s needle : string) : bool :=
  String.prefix needle s ||
  match s with
  | EmptyString => false
  | String _ s' => includes s' needle
  end.

Fixpoint lookup_prop (k : string) (props : list (string * value)) : option value :=
  match props with
  | [] => None
  | (k', v) :: rest => if String.eqb k k' then Some v else lookup_prop k rest
  end.

Definition is_digit (c : Ascii.ascii) : bool :=
  (48 <=? Ascii.N_of_ascii c)%N && (Ascii.N_of_ascii c <=? 57)%N.

Fixpoint all_digits (s : string) : bool :=
  match s with
  | EmptyString => true
  | String c s' => is_digit c && all_digits s'
  end.

(** The position an array index names: the key is the decimal numeral of
    some [i < n]. *)
Definition array_index (n : nat) (k : string) : option nat :=
  if all_digits k
  then List.find (fun i => String.eqb k (pretty i)) (seq 0%nat n)
  else None.

(** [Object.prototype.hasOwnProperty.call(v, k)] for [v] with
    [typeof v === 'object'] and not null.  An array owns its indices and
    [length]; an [Error] owns its [message]. *)
Definition hasOwnProperty (v : value) (k : string) : bool :=
  match v with
  | VObj props => bool_decide (is_Some (lookup_prop k props))
  | VArr xs => String.eqb k "length" || bool_decide (is_Some (array_index (length xs) k))
  | VError _ => String.eqb k "message"
  | _ => false
  end.

(** [v[k]] (also written [v.k]) for [v] neither null nor undefined, for
    the reads the two modules make: a field of a message, of an encoded
    value or of a thrown value, and a step of the chain walk (an own
    property of an object).  Reading a property of a proxy runs its [get]
    trap, which returns the proxy of the longer chain; the one read a proxy
    refuses, that of [prototype], is not among the reads of the modules
    (the chain walk reads own properties of values of type "object"
    only). *)
Definition get (v : value) (k : string) : value :=
  match v with
  | VObj props => default VUndefined (lookup_prop k props)
  | VArr xs =>
      if String.eqb k "length" then VNum (Z.of_nat (length xs))
      else match array_index (length xs) k with
           | Some i => nth i xs VUndefined
           | None => VUndefined
           end
  | VError m => if String.eqb k "message" then VStr m else VUndefined
  | VProxy ep keyChain => VProxy ep (keyChain ++ [k])
  | _ => VUndefined
  end.

(** [Object.values(v)]: the own enumerable values. *)
Definition Object_values (v : value) : list value :=
  match v with
  | VObj props => map snd props
  | VArr xs => xs
  | _ => []
  end.

(** ** Identifiers *)

(** The keys of [promiseMap], of type [number | string]. *)
Inductive ident : Type :=
| IdNum (n : Z)
| IdStr (s : string).

Global Instance ident_eq_dec : EqDecision ident.
Proof. solve_decision. Defined.

Global Instance ident_countable : Countable ident.
Proof.
  refine (inj_countable'
    (fun i => match i with IdNum n => inl n | IdStr s => inr s end)
    (fun x => match x with inl n => IdNum n | inr s => IdStr s end) _).
  intros []; reflexivity.
Defined.

Definition value_of_ident (i : ident) : value :=
  match i with IdNum n => VNum n | IdStr s => VStr s end.

(** The key of [promiseMap] a value selects; values of other types are the
    key of no entry. *)
Definition ident_of_value (v : value) : option ident :=
  match v with
  | VNum n => Some (IdNum n)
  | VStr s => Some (IdStr s)
  | _ => None
  end.

(** ** The realm: module-level state and its observable effects *)

Inductive settlement : Type :=
| Fulfilled (v : value)
| Rejected (e : value).

(** The listeners the module installs with [addEventListener]. *)
Inductive registration : Type :=
| ClientHandler (ep : endpoint)
| ServerHandler (obj : value) (ep : endpoint)
| ChannelListener (ep : endpoint) (channelName : value).

(** [uniqueInRealmId] and [promiseMap] are the module's variables.
    [promiseMap] sends an id to the promise whose [res]/[rej] pair it holds.
    The other fields record effects: the number of [crypto.randomUUID]
    draws, the number of promises created, the promises the module's calls
    of [res] and [rej] settled, in order, the calls of [res] themselves
    with their argument, the listeners installed, the messages handed to
    each transport's [postMessage], the steps of the chain walk of
    [getKeyChain], and the values passed to [console.error]. *)
Record realm : Type := Realm {
  uniqueInRealmId : Z;
  uuids_drawn : nat;
  promises : nat;
  promiseMap : gmap ident nat;
  settled : list (nat * settlement);
  res_calls : list (nat * value);
  listeners : list registration;
  posted : list (nat * value);
  walked : list (value * string);
  console : list value
}.

Definition initial_realm : realm :=
  Realm 0 0%nat 0%nat ∅ [] [] [] [] [] [].

(** [let markedObj = new WeakSet()]: nothing in the module adds to it. *)
Definition markedObj_has (v : value) : bool := false.

Definition MAX_SAFE_INTEGER : Z := 2 ^ 53 - 1.

(** ** The monad *)

(** A run finishes with a value, throws, or stops at an [await] of a promise
    that is still pending. *)
Inductive outcome (A : Type) : Type :=
| Done (a : A)
| Thrown (e : value)
| Suspended.
Arguments Done {A} a.
Arguments Thrown {A} e.
Arguments Suspended {A}.

Definition M (A : Type) : Type := realm -> outcome A * realm.

Global Instance M_ret : MRet M := fun A a st => (Done a, st).
Global Instance M_bind : MBind M := fun A B f m st =>
  match m st with
  | (Done a, st') => f a st'
  | (Thrown e, st') => (Thrown e, st')
  | (Suspended, st') => (Suspended, st')
  end.

Definition throw {A} (e : value) : M A := fun st => (Thrown e, st).
Definition suspend {A} : M A := fun st => (Suspended, st).

(** [try { body } catch (error) { handler }] *)
Definition try_catch {A} (body : M A) (handler : value -> M A) : M A :=
  fun st =>
    match body st with
    | (Thrown e, st') => handler e st'
    | r => r
    end.

Definition modify (f : realm -> realm) : M unit := fun st => (Done tt, f st).
Definition gets {A} (f : realm -> A) : M A := fun st => (Done (f st), st).

Fixpoint mapM {A B} (f : A -> M B) (l : list A) : M (list B) :=
  match l with
  | [] => mret []
  | x :: rest => y ← f x; ys ← mapM f rest; mret (y :: ys)
  end.

Definition run {A} (m : M A) (st : realm) : realm := snd (m st).

(** ** Effects on the realm *)

Definition addEventListener (r : registration) : M unit :=
  modify (fun st =>
    Realm (uniqueInRealmId st) (uuids_drawn st) (promises st) (promiseMap st)
          (settled st) (res_calls st) (listeners st ++ [r]) (posted st) (walked st) (console st)).

Definition console_error (e : value) : M unit :=
  modify (fun st =>
    Realm (uniqueInRealmId st) (uuids_drawn st) (promises st) (promiseMap st)
          (settled st) (res_calls st) (listeners st) (posted st) (walked st) (console st ++ [e])).

Definition log_walk (obj : value) (p : string) : M unit :=
  modify (fun st =>
    Realm (uniqueInRealmId st) (uuids_drawn st) (promises st) (promiseMap st)
          (settled st) (res_calls st) (listeners st) (posted st) (walked st ++ [(obj, p)]) (console st)).

Definition transport_post (n : nat) (data : value) : M unit :=
  modify (fun st =>
    Realm (uniqueInRealmId st) (uuids_drawn st) (promises st) (promiseMap st)
          (settled st) (res_calls st) (listeners st) (posted st ++ [(n, data)]) (walked st) (console st)).

(** [new Promise(...)]: the next promise. *)
Definition new_promise : M nat :=
  fun st =>
    (Done (promises st),
     Realm (uniqueInRealmId st) (uuids_drawn st) (S (promises st)) (promiseMap st)
           (settled st) (res_calls st) (listeners st) (posted st) (walked st) (console st)).

Definition promiseMap_set (id : ident) (p : nat) : M unit :=
  modify (fun st =>
    Realm (uniqueInRealmId st) (uuids_drawn st) (promises st) (<[id := p]> (promiseMap st))
          (settled st) (res_calls st) (listeners st) (posted st) (walked st) (console st)).

(** [promiseMap.get(id)] for an arbitrary value [id]. *)
Definition promiseMap_get (id : value) : M (option nat) :=
  gets (fun st => i ← ident_of_value id; promiseMap st !! i).

Definition promiseMap_delete (id : value) : M unit :=
  modify (fun st =>
    Realm (uniqueInRealmId st) (uuids_drawn st) (promises st)
          (match ident_of_value id with
           | Some i => delete i (promiseMap st)
           | None => promiseMap st
           end)
          (settled st) (res_calls st) (listeners st) (posted st) (walked st) (console st)).

(** Whether the resolve function of a promise treats [v] as a thenable:
    [v.then] is callable.  Every proxy is one (its [get] trap answers
    [then] with a callable proxy).  The values found in a received message
    are structured clones and the proxies made from them; a promise of the
    realm is not among them. *)
Definition thenable (v : value) : bool := is_function (get v "then").

(** [p.res(v)], the resolve function of the promise [p].  The call is
    recorded.  A value that is not a thenable fulfils the promise.  A
    thenable does not settle it: the promise follows the thenable, whose
    [then] the promise machinery calls in a later job (for a proxy that is
    an operation of the client, which posts an [await] request under a new
    id), and is settled, if ever, by what that [then] reports. *)
Definition call_res (p : nat) (v : value) : M unit :=
  modify (fun st =>
    Realm (uniqueInRealmId st) (uuids_drawn st) (promises st) (promiseMap st)
          (settled st ++ (if thenable v then [] else [(p, Fulfilled v)]))
          (res_calls st ++ [(p, v)]) (listeners st) (posted st) (walked st)
          (console st)).

(** ** [endpoint.ts]: [createChannel] *)

(** The message the derived endpoint hands to its parent's [postMessage]. *)
Definition channel_message (channelName data : value) : value :=
  VObj [("channel", channelName); ("payload", data)].

(** [ep.postMessage(data)].  A transport records the message; the endpoint
    made by [createChannel(parent, channelName)] wraps it and posts it on
    [parent]. *)
Fixpoint postMessage (ep : endpoint) (data : value) : M unit :=
  match ep with
  | EBase n => transport_post n data
  | EChan parent channelName => postMessage parent (channel_message channelName data)
  end.

(** The [data] of [new MessageEvent('message', {data: v})]: a member that
    is absent or undefined takes the default of the dictionary, [null]. *)
Definition MessageEvent_data (v : value) : value :=
  match v with
  | VUndefined => VNull
  | _ => v
  end.

(** [channelListener]: the data of the event passed to every listener of the
    derived endpoint, if the incoming message passes the filter. *)
Definition channelListener (channelName : value) (data : value) : option value :=
  if truthy data && is_object data && strict_eq (get data "channel") channelName
  then Some (MessageEvent_data (get data "payload"))
  else None.

(** [createChannel(endpoint, channelName)]: subscribes [channelListener] on
    [endpoint] and returns the derived endpoint. *)
Definition createChannel (ep : endpoint) (channelName : value) : M endpoint :=
  addEventListener (ChannelListener ep channelName);;
  mret (EChan ep channelName).

(** ** [remoteObject.ts] *)

(** The settled outcome of [await fn(...args)] for a host function. *)
Inductive call_result : Type :=
| Returns (v : value)
| Throws (e : value)
| Pending.

(** The completion of [new c(...args)] for a host function. *)
Inductive completion : Type :=
| Normal (v : value)
| Abrupt (e : value).

Definition unsafe_key (key : value) : bool :=
  match key with
  | VStr s => includes s "__proto__" || includes s "prototype" || includes s "constructor"
  | _ => true
  end.

Definition strings_of (keys : list value) : list string :=
  omap (fun k => match k with VStr s => Some s | _ => None end) keys.

(** [asserts keyChain is string[]]: on success the chain as strings. *)
Definition assertValidKeyChain (keyChain : value) : M (list string) :=
  match keyChain with
  | VArr keys =>
      if existsb unsafe_key keys
      then throw (VError "Invalid keyChain: contains unsafe property names")
      else mret (strings_of keys)
  | _ => throw (VError "Invalid keyChain: must be an array")
  end.

Definition assertValidRPCCall (data : value) : M unit :=
  if negb (truthy data) || negb (is_object data)
  then throw (VError "Invalid RPC call: not an object")
  else if String.eqb (typeof (get data "id")) "undefined" || negb (truthy (get data "type"))
  then throw (VError "Invalid RPC call: missing id or type")
  else
    assertValidKeyChain (get data "keyChain");;
    if (strict_eq (get data "type") (VStr "call") || strict_eq (get data "type") (VStr "construct"))
       && negb (isArray (get data "args"))
    then throw (VError "Invalid RPC call: args must be an array")
    else mret tt.

Definition assertValidRPCResponse (data : value) : M unit :=
  if negb (truthy data) || negb (is_object data)
  then throw (VError "Invalid RPC response: not an object")
  else if String.eqb (typeof (get data "id")) "undefined"
          || negb (strict_eq (get data "type") (VStr "response"))
  then throw (VError "Invalid RPC response: missing id or invalid type")
  else mret tt.

Definition assertIsFunction (target : value) (name : string) : M unit :=
  if negb (is_function target)
  then throw (VError ("Target '" +:+ name +:+ "' is not a function"))
  else mret tt.

Definition assertPropertyExists (obj : value) (property : string) : M unit :=
  if negb (truthy obj) || negb (is_object obj)
  then throw (VError ("Cannot access property '" +:+ property +:+ "' on non-object"))
  else if negb (hasOwnProperty obj property)
  then throw (VError ("Property '" +:+ property +:+ "' not found or not accessible"))
  else mret tt.

(** The [TypeError] of a property read on [null] or [undefined]; its text
    depends on the engine. *)
Definition property_TypeError (k : string) : value :=
  VError ("Cannot read properties of undefined (reading '" +:+ k +:+ "')").

(** A property read that may meet [null] or [undefined]. *)
Definition read (v : value) (k : string) : M value :=
  match v with
  | VUndefined | VNull => throw (property_TypeError k)
  | _ => mret (get v k)
  end.

Definition keyChain_value (keyChain : list string) : value := VArr (VStr <$> keyChain).

Definition await_request (id : value) (keyChain : list string) : value :=
  VObj [("id", id); ("type", VStr "await"); ("keyChain", keyChain_value keyChain)].

Definition call_request (id : value) (keyChain : list string) (args : list value) : value :=
  VObj [("id", id); ("type", VStr "call"); ("keyChain", keyChain_value keyChain);
        ("args", VArr args)].

Definition construct_request (id : value) (keyChain : list string) (args : list value) : value :=
  VObj [("id", id); ("type", VStr "construct"); ("keyChain", keyChain_value keyChain);
        ("args", VArr args)].

Definition response_message (id data : value) : value :=
  VObj [("id", id); ("type", VStr "response"); ("data", data)].

Definition error_message (id error : value) : value :=
  VObj [("id", id); ("type", VStr "error"); ("error", error)].

Definition wraped (id : value) : value := VObj [("type", VStr "wraped"); ("id", id)].
Definition any (data : value) : value := VObj [("type", VStr "any"); ("data", data)].

Section Bridge.

(** The host: [crypto.randomUUID] as the sequence of its draws, and the
    functions of exposed objects, called and constructed.  [call_fn f args]
    is the settled outcome of [await fn(...args)]. *)
Variable randomUUID : nat -> string.
Variable call_fn : nat -> list value -> call_result.
Variable construct_fn : nat -> list value -> completion.

Definition getId : M ident :=
  fun st =>
    if MAX_SAFE_INTEGER - 1000 <? uniqueInRealmId st
    then (Done (IdStr (randomUUID (uuids_drawn st))),
          Realm (uniqueInRealmId st) (S (uuids_drawn st)) (promises st) (promiseMap st)
                (settled st) (res_calls st) (listeners st) (posted st) (walked st) (console st))
    else (Done (IdNum (uniqueInRealmId st + 1)),
          Realm (uniqueInRealmId st + 1) (uuids_drawn st) (promises st) (promiseMap st)
                (settled st) (res_calls st) (listeners st) (posted st) (walked st) (console st)).

(** [expose(obj, ep)] installs the dispatcher, defined below as
    [server_handler obj ep]. *)
Definition expose (obj : value) (ep : endpoint) : M unit :=
  addEventListener (ServerHandler obj ep).

(** The value of the local [wrap] after the three tests of [wrapArg]. *)
Definition must_wrap (data : value) (wrap : bool) : bool :=
  if is_function data then true
  else if truthy data && is_object data && negb (isArray data)
                      && negb (strict_eq data VNull)
  then existsb is_function (Object_values data)
  else if markedObj_has data then true
  else wrap.

Definition wrapArg (data : value) (ep : endpoint) (wrap : bool) : M value :=
  if must_wrap data wrap then
    id ← getId;
    channelEp ← createChannel ep (value_of_ident id);
    expose data channelEp;;
    mret (wraped (value_of_ident id))
  else mret (any data).

Definition wrapArgs (args : list value) (ep : endpoint) : M (list value) :=
  mapM (fun arg => wrapArg arg ep false) args.

(** [wrap(ep)] installs the client handler, defined below as
    [client_handler ep], and returns the root proxy. *)
Definition wrap (ep : endpoint) : M value :=
  addEventListener (ClientHandler ep);;
  mret (VProxy ep []).

Definition unwrapArg (data : value) (ep : endpoint) : M value :=
  type ← read data "type";
  if strict_eq type (VStr "any") then mret (get data "data")
  else if strict_eq type (VStr "wraped") then
    channelEp ← createChannel ep (get data "id");
    wrap channelEp
  else mret VUndefined.

Definition createPromise (id : ident) : M nat :=
  p ← new_promise;
  promiseMap_set id p;;
  mret p.

(** The listener [wrap(ep)] subscribes on [ep]. *)
Definition client_handler (ep : endpoint) (data : value) : M unit :=
  if truthy data && negb (truthy (get data "channel")) then
    try_catch
      (assertValidRPCResponse data;;
       res ← unwrapArg (get data "data") ep;
       p ← promiseMap_get (get data "id");
       match p with
       | Some p => call_res p res;; promiseMap_delete (get data "id")
       | None => mret tt
       end)
      (fun error => console_error error)
  else mret tt.

(** [keyChain[keyChain.length - 1] == 'then'] *)
Definition last_is_then (keyChain : list string) : bool :=
  match last keyChain with
  | Some k => String.eqb k "then"
  | None => false
  end.

(** The [apply] trap of [createProxy(keyChain)] in [wrap(ep)].
    [p.then(...args)] is a new promise. *)
Definition proxy_apply (ep : endpoint) (keyChain : list string) (args : list value)
  : M value :=
  if last_is_then keyChain then
    id ← getId;
    _ ← createPromise id;
    postMessage ep (await_request (value_of_ident id) (removelast keyChain));;
    q ← new_promise;
    mret (VPromise q)
  else
    id ← getId;
    p ← createPromise id;
    args' ← wrapArgs args ep;
    postMessage ep (call_request (value_of_ident id) keyChain args');;
    mret (VPromise p).

(** The [construct] trap. *)
Definition proxy_construct (ep : endpoint) (keyChain : list string) (args : list value)
  : M value :=
  id ← getId;
  p ← createPromise id;
  args' ← wrapArgs args ep;
  postMessage ep (construct_request (value_of_ident id) keyChain args');;
  mret (VPromise p).

(** The loop of [getKeyChain]; every iteration is recorded in [walked]. *)
Fixpoint walk (currentObject : value) (keyChain : list string) : M value :=
  match keyChain with
  | [] => mret currentObject
  | p :: rest =>
      log_walk currentObject p;;
      assertPropertyExists currentObject p;;
      walk (get currentObject p) rest
  end.

Definition getKeyChain (obj : value) (keyChain : value) : M value :=
  keys ← assertValidKeyChain keyChain;
  walk obj keys.

(** [await fn(...args)] in the dispatcher.  Calling a proxy runs its
    [apply] trap and the dispatcher stops at the pending promise. *)
Definition await_call (fn : value) (args : list value) : M value :=
  match fn with
  | VFun f =>
      match call_fn f args with
      | Returns v => mret v
      | Throws e => throw e
      | Pending => suspend
      end
  | VProxy ep keyChain => proxy_apply ep keyChain args;; suspend
  | _ => throw (VError "fn is not a function")
  end.

(** [new c(...args)] *)
Definition construct (c : value) (args : list value) : M value :=
  match c with
  | VFun f =>
      match construct_fn f args with
      | Normal v => mret v
      | Abrupt e => throw e
      end
  | VProxy ep keyChain => proxy_construct ep keyChain args
  | _ => throw (VError "c is not a constructor")
  end.

Definition array_elems (v : value) : list value :=
  match v with VArr xs => xs | _ => [] end.

(** The listener [expose(obj, ep)] subscribes on [ep]. *)
Definition server_handler (obj : value) (ep : endpoint) (data : value) : M unit :=
  if truthy data && negb (truthy (get data "channel")) then
    try_catch
      (assertValidRPCCall data;;
       if strict_eq (get data "type") (VStr "await") then
         o ← getKeyChain obj (get data "keyChain");
         w ← wrapArg o ep false;
         postMessage ep (response_message (get data "id") w)
       else if strict_eq (get data "type") (VStr "call") then
         fn ← getKeyChain obj (get data "keyChain");
         assertIsFunction fn "call target";;
         args ← mapM (fun a => unwrapArg a ep) (array_elems (get data "args"));
         response ← await_call fn args;
         w ← wrapArg response ep false;
         postMessage ep (response_message (get data "id") w)
       else if strict_eq (get data "type") (VStr "construct") then
         c ← getKeyChain obj (get data "keyChain");
         assertIsFunction c "constructor target";;
         args ← (if isArray (get data "args")
                 then mapM (fun a => unwrapArg a ep) (array_elems (get data "args"))
                 else mret []);
         i ← construct c args;
         w ← wrapArg i ep true;
         postMessage ep (response_message (get data "id") w)
       else mret tt)
      (fun error =>
         console_error error;;
         try_catch
           (message ← read error "message";
            postMessage ep (error_message (get data "id") message))
           (fun sendError => console_error sendError))
  else mret tt.

End Bridge.

(** The transport under [ep] and the message it is handed when [data] is
    posted on [ep]. *)
Fixpoint wire (ep : endpoint) (data : value) : nat * value :=
  match ep with
  | EBase n => (n, data)
  | EChan parent channelName => wire parent (channel_message channelName data)
  end.

Definition unsafe_message : string :=
  "Invalid keyChain: contains unsafe property names".

(** ** Client operations and events *)

(** A terminal operation on the proxy of chain [keyChain]: a call or a
    construction. *)
Inductive client_op : Type :=
| OpApply (keyChain : list string) (args : list value)
| OpConstruct (keyChain : list string) (args : list value).

Section Sessions.

Variable randomUUID : nat -> string.
Variable call_fn : nat -> list value -> call_result.
Variable construct_fn : nat -> list value -> completion.

Definition perform (ep : endpoint) (op : client_op) : M value :=
  match op with
  | OpApply keyChain args => proxy_apply randomUUID ep keyChain args
  | OpConstruct keyChain args => proxy_construct randomUUID ep keyChain args
  end.

(** What can happen in a realm: the program calls [wrap] or [expose],
    operates on a proxy, or a transport delivers a message to a handler
    the module installed. *)
Inductive event : Type :=
| EvWrap (ep : endpoint)
| EvExpose (obj : value) (ep : endpoint)
| EvOperate (ep : endpoint) (op : client_op)
| EvClientMessage (ep : endpoint) (data : value)
| EvServerMessage (obj : value) (ep : endpoint) (data : value).

Definition step (st : realm) (ev : event) : realm :=
  match ev with
  | EvWrap ep => run (wrap ep) st
  | EvExpose obj ep => run (expose obj ep) st
  | EvOperate ep op => run (perform ep op) st
  | EvClientMessage ep data => run (client_handler ep data) st
  | EvServerMessage obj ep data =>
      run (server_handler randomUUID call_fn construct_fn obj ep data) st
  end.

Definition after (evs : list event) : realm := foldl step initial_realm evs.

(** The id the next call of [getId] returns. *)
Definition next_id (st : realm) : value :=
  match fst (getId randomUUID st) with
  | Done id => value_of_ident id
  | _ => VUndefined
  end.

(** The ids of the requests that the proxy operations among [evs] post, in
    order, when the events happen from [st] on. *)
Fixpoint operation_ids (st : realm) (evs : list event) : list value :=
  match evs with
  | [] => []
  | ev :: rest =>
      match ev with
      | EvOperate _ _ => [next_id st]
      | _ => []
      end ++ operation_ids (step st ev) rest
  end.

(** The id [id] was handed out by [getId] between [st] and [st']. *)
Definition issued_between (st st' : realm) (id : value) : Prop :=
  (exists n, id = VNum n /\ uniqueInRealmId st < n <= uniqueInRealmId st')
  \/ (exists k, id = VStr (randomUUID k)
              /\ (uuids_drawn st <= k < uuids_drawn st')%nat).

End Sessions.

Definition advances (st st' : realm) : Prop :=
  uniqueInRealmId st <= uniqueInRealmId st'
  /\ (uuids_drawn st <= uuids_drawn st')%nat.

(** The promises the log [settled] names. *)
Definition settled_promises (st : realm) : list nat := fst <$> settled st.

(** The promises whose resolve function was called. *)
Definition called_promises (st : realm) : list nat := fst <$> res_calls st.

(** The settlements a sequence of calls of [res] makes: one for each call
    whose argument is not a thenable. *)
Definition fulfilments (calls : list (nat * value)) : list (nat * settlement) :=
  omap (fun c => if thenable (snd c) then None else Some (fst c, Fulfilled (snd c))) calls.

(** What every run keeps true of the pending table and the two logs: no
    resolve function is called twice, the resolve function of a pending
    promise was not called, the promises settled are those whose resolve
    function was called with a value that is not a thenable, every promise
    whose resolve function was called was created, no promise is settled
    twice, a pending promise is not settled and is stored under one
    id only, every promise named was created, and no promise is
    rejected. *)
Record consistent (st : realm) : Prop := {
  called_once : NoDup (called_promises st);
  pending_uncalled :
    forall i p, promiseMap st !! i = Some p -> p ∉ called_promises st;
  settled_by_call : settled st = fulfilments (res_calls st);
  called_created :
    forall p, p ∈ called_promises st -> (p < promises st)%nat;
  settled_once : NoDup (settled_promises st);
  pending_unsettled :
    forall i p, promiseMap st !! i = Some p ->
                (p < promises st)%nat /\ p ∉ settled_promises st;
  pending_injective :
    forall i j p, promiseMap st !! i = Some p -> promiseMap st !! j = Some p -> i = j;
  settled_created :
    forall p, p ∈ settled_promises st -> (p < promises st)%nat;
  never_rejected :
    forall p s, (p, s) ∈ settled st -> exists v, s = Fulfilled v
}.

(** [always R m]: every run of [m] takes a realm to an [R]-related one. *)
Definition always {A} (R : realm -> realm -> Prop) (m : M A) : Prop :=
  forall st, R st (snd (m st)).

(** The promise state is the same in both realms. *)
Definition same_promises (st st' : realm) : Prop :=
  promises st' = promises st
  /\ promiseMap st' = promiseMap st
  /\ settled st' = settled st
  /\ res_calls st' = res_calls st.

Definition keeps_consistent (st st' : realm) : Prop :=
  consistent st -> consistent st'.

(** ** A worked host *)

(** The exposed root of the round-trip scenarios: [add(a, b)] returns
    [a + b], [boom()] throws [new Error("bad")], and [Counter] is the class
    whose constructor stores its argument in the own property [n] (its
    methods live on the prototype). *)
Definition scenario_randomUUID (k : nat) : string := "uuid-" +:+ pretty k.

Definition scenario_call (f : nat) (args : list value) : call_result :=
  match f, args with
  | 0%nat, [VNum a; VNum b] => Returns (VNum (a + b))
  | 1%nat, _ => Throws (VError "bad")
  | _, _ => Returns VUndefined
  end.

Definition scenario_construct (f : nat) (args : list value) : completion :=
  match f, args with
  | 2%nat, n :: _ => Normal (VObj [("n", n)])
  | _, _ => Abrupt (VError "not a constructor")
  end.

Definition scenario_root : value :=
  VObj [("add", VFun 0); ("boom", VFun 1); ("Counter", VFun 2)].

Definition scenario_server : value -> endpoint -> value -> M unit :=
  server_handler scenario_randomUUID scenario_call scenario_construct.

(** ** Notions used to state what the dispatcher and the proxies do *)

(** A run of [m] never ends in an exception. *)
Definition no_throw {A} (m : M A) : Prop :=
  forall st e, fst (m st) <> Thrown e.

(** The chain [ks] holds no key the validator refuses. *)
Definition safe_chain (ks : list string) : bool :=
  negb (existsb unsafe_key (VStr <$> ks)).

(** Every step of the chain [ks] from [obj] names an own property of a
    non-null object: the [i]-th key is owned by the value reached through
    the first [i] keys. *)
Definition steps_ok (obj : value) (ks : list string) : Prop :=
  forall i k, ks !! i = Some k ->
    truthy (foldl get obj (take i ks)) = true
    /\ is_object (foldl get obj (take i ks)) = true
    /\ hasOwnProperty (foldl get obj (take i ks)) k = true.

(** [data] is a bare request (no truthy [channel] field) of type [t] that
    carries the defined id [id] and the key chain [ks]. *)
Definition bare_request (data : value) (t : string) (id : value) (ks : list string)
  : Prop :=
  truthy (get data "channel") = false
  /\ get data "id" = id
  /\ typeof id <> "undefined"
  /\ get data "type" = VStr t
  /\ get data "keyChain" = keyChain_value ks.

(** The catch block of the dispatcher, for the request [data]. *)
Definition report_error (ep : endpoint) (data : value) (error : value) : M unit :=
  console_error error;;
  try_catch
    (message ← read error "message";
     postMessage ep (error_message (get data "id") message))
    (fun sendError => console_error sendError).

(** The counter is a safe integer that never passed the threshold by more
    than one. *)
Definition counter_in_range (st : realm) : Prop :=
  0 <= uniqueInRealmId st <= MAX_SAFE_INTEGER - 999.

Definition keeps_in_range (st st' : realm) : Prop :=
  counter_in_range st -> counter_in_range st'.

(** [getId] handed the id [i] out before the realm reached [st]. *)
Definition issued_before (randomUUID : nat -> string) (st : realm) (i : ident) : Prop :=
  match i with
  | IdNum n => n <= uniqueInRealmId st
  | IdStr s => exists k, (k < uuids_drawn st)%nat /\ s = randomUUID k
  end.

(** Every key of the pending table was handed out by [getId]. *)
Definition keys_issued (randomUUID : nat -> string) (st : realm) : Prop :=
  forall i p, promiseMap st !! i = Some p -> issued_before randomUUID st i.

Definition keeps_keys_issued (randomUUID : nat -> string) (st st' : realm) : Prop :=
  keys_issued randomUUID st -> keys_issued randomUUID st'.

(** The errors of [assertPropertyExists]. *)
Definition not_found (k : string) : value :=
  VError ("Property '" +:+ k +:+ "' not found or not accessible").

Definition non_object (k : string) : value :=
  VError ("Cannot access property '" +:+ k +:+ "' on non-object").



(** ** [endpoint.ts]: endpoint objects and their listeners *)

(** A second, finer model of [endpoint.ts]: endpoints are objects with
    listener sets, listeners are the closures the module creates (or opaque
    user listeners), and calling a listener runs its body.  Closures and
    channel objects are told apart by the order of their creation. *)
Module EndpointObjects.

#[local] Unset Elimination Schemes.
Inductive Listener : Type :=
| UserListener (u : nat)
| listenerTo (id : nat) (target : PostMessageEndpoint)
| loggingListener (id : nat) (prefix : string) (listener : Listener)
| channelListenerOf (c : nat) (channelName : value)
with PostMessageEndpoint : Type :=
| Transport (n : nat)
| ChannelEndpoint (c : nat) (endpoint : PostMessageEndpoint) (channelName : value)
| LoggingEndpoint (prefix : string) (logIncoming logOutgoing : bool)
                  (endpoint : PostMessageEndpoint).
#[local] Set Elimination Schemes.

(** Which function object a listener is: a user listener by its name, a
    closure of the module by its creation number. *)
Definition identity (l : Listener) : nat + nat :=
  match l with
  | UserListener u => inl u
  | listenerTo id _ => inr id
  | loggingListener id _ _ => inr id
  | channelListenerOf c _ => inr c
  end.

(** [Set.has], [Set.add] and [Set.delete] on a set kept in insertion
    order. *)
Definition set_has (s : list Listener) (l : Listener) : bool :=
  existsb (fun x => bool_decide (identity x = identity l)) s.

Definition set_add (s : list Listener) (l : Listener) : list Listener :=
  if set_has s l then s else s ++ [l].

Definition set_delete (s : list Listener) (l : Listener) : list Listener :=
  List.filter (fun x => negb (bool_decide (identity x = identity l))) s.

(** [created]: closures and channel objects created so far.
    [transports]: the message listeners of each transport (an event
    target: a set).  [channels]: the [channelListeners] set of each object
    made by [createChannel].  [sent]: the messages handed to the
    transports.  [logs]: the calls of the logger.  [calls]: the calls of
    user listeners, with the data of the event. *)
Record net : Type := Net {
  created : nat;
  transports : gmap nat (list Listener);
  channels : gmap nat (list Listener);
  sent : list (nat * value);
  logs : list (string * value);
  calls : list (nat * value)
}.

Definition empty_net : net := Net 0 ∅ ∅ [] [] [].

Definition logger (message : string) (data : value) (st : net) : net :=
  Net (created st) (transports st) (channels st) (sent st)
      (logs st ++ [(message, data)]) (calls st).

Definition fresh (st : net) : nat * net :=
  (created st,
   Net (S (created st)) (transports st) (channels st) (sent st) (logs st) (calls st)).

Fixpoint postMessage (e : PostMessageEndpoint) (data : value) (st : net) : net :=
  match e with
  | Transport n =>
      Net (created st) (transports st) (channels st) (sent st ++ [(n, data)])
          (logs st) (calls st)
  | ChannelEndpoint _ endpoint channelName =>
      postMessage endpoint (channel_message channelName data) st
  | LoggingEndpoint prefix _ logOutgoing endpoint =>
      postMessage endpoint data
        (if logOutgoing then logger (prefix +:+ " [OUT]:") data st else st)
  end.

Fixpoint addEventListener (e : PostMessageEndpoint) (type : string) (l : Listener)
    (st : net) : net :=
  match e with
  | Transport n =>
      if String.eqb type "message"
      then Net (created st)
               (<[n := set_add (default [] (transports st !! n)) l]> (transports st))
               (channels st) (sent st) (logs st) (calls st)
      else st
  | ChannelEndpoint c _ _ =>
      if String.eqb type "message"
      then Net (created st) (transports st)
               (<[c := set_add (default [] (channels st !! c)) l]> (channels st))
               (sent st) (logs st) (calls st)
      else st
  | LoggingEndpoint prefix logIncoming _ endpoint =>
      if String.eqb type "message" && logIncoming
      then addEventListener endpoint type
             (loggingListener (fst (fresh st)) prefix l) (snd (fresh st))
      else addEventListener endpoint type l st
  end.

Fixpoint removeEventListener (e : PostMessageEndpoint) (type : string) (l : Listener)
    (st : net) : net :=
  match e with
  | Transport n =>
      if String.eqb type "message"
      then Net (created st)
               (<[n := set_delete (default [] (transports st !! n)) l]> (transports st))
               (channels st) (sent st) (logs st) (calls st)
      else st
  | ChannelEndpoint c _ _ =>
      if String.eqb type "message"
      then Net (created st) (transports st)
               (<[c := set_delete (default [] (channels st !! c)) l]> (channels st))
               (sent st) (logs st) (calls st)
      else st
  | LoggingEndpoint _ _ _ endpoint => removeEventListener endpoint type l st
  end.

(** [createChannel(endpoint, channelName)] *)
Definition createChannel (endpoint : PostMessageEndpoint) (channelName : value)
    (st : net) : PostMessageEndpoint * net :=
  let c := fst (fresh st) in
  let st1 := snd (fresh st) in
  let st2 := Net (created st1) (transports st1) (<[c := []]> (channels st1))
                 (sent st1) (logs st1) (calls st1) in
  (ChannelEndpoint c endpoint channelName,
   addEventListener endpoint "message" (channelListenerOf c channelName) st2).

(** [withLogging(endpoint, {prefix, logIncoming, logOutgoing})], the
    logger being recorded in [logs]. *)
Definition withLogging (endpoint : PostMessageEndpoint) (prefix : string)
    (logIncoming logOutgoing : bool) : PostMessageEndpoint :=
  LoggingEndpoint prefix logIncoming logOutgoing endpoint.

(** [connectEndpoints(endpointA, endpointB)]: the two listeners, for the
    cleanup function, and the net after the subscriptions. *)
Definition connectEndpoints (endpointA endpointB : PostMessageEndpoint) (st : net)
    : (Listener * Listener) * net :=
  let listenerA := listenerTo (fst (fresh st)) endpointB in
  let st1 := snd (fresh st) in
  let listenerB := listenerTo (fst (fresh st1)) endpointA in
  let st2 := snd (fresh st1) in
  ((listenerA, listenerB),
   addEventListener endpointB "message" listenerB
     (addEventListener endpointA "message" listenerA st2)).

(** The function [connectEndpoints] returns. *)
Definition cleanup (endpointA endpointB : PostMessageEndpoint)
    (ls : Listener * Listener) (st : net) : net :=
  removeEventListener endpointB "message" (snd ls)
    (removeEventListener endpointA "message" (fst ls) st).

(** Calling every listener of a list in turn. *)
Definition for_each (call : Listener -> net -> option net) (ls : list Listener)
    (st : net) : option net :=
  foldl (fun acc l => match acc with Some st' => call l st' | None => None end)
        (Some st) ls.

(** [listener(event)] for an event with data [data].  The depth of the
    calls (a channel listener calls the listeners of its channel) is
    bounded by [fuel]; [None] is a bound that was too small. *)
Fixpoint call (fuel : nat) (l : Listener) (data : value) (st : net) : option net :=
  match fuel with
  | O => None
  | S fuel' =>
      match l with
      | UserListener u =>
          Some (Net (created st) (transports st) (channels st) (sent st) (logs st)
                    (calls st ++ [(u, data)]))
      | listenerTo _ target => Some (postMessage target data st)
      | loggingListener _ prefix listener =>
          call fuel' listener data (logger (prefix +:+ " [IN]:") data st)
      | channelListenerOf c channelName =>
          if truthy data && is_object data && strict_eq (get data "channel") channelName
          then for_each (fun l' => call fuel' l' (MessageEvent_data (get data "payload")))
                        (default [] (channels st !! c)) st
          else Some st
      end
  end.

(** A message arrives on transport [n]. *)
Definition deliver (fuel : nat) (n : nat) (data : value) (st : net) : option net :=
  for_each (fun l => call fuel l data) (default [] (transports st !! n)) st.





End EndpointObjects.

(** ** [remoteObject.ts]: the [get] trap and [mapHelper] *)

(** A third model, of the identity of proxies: each proxy made by
    [createProxy] is a node with its key chain and its own [getters] map;
    a proxy is named by its position in the heap. *)
Module ProxyHeap.

Record node : Type := Node {
  keyChain : list string;
  getters : gmap string nat
}.

Inductive PropertyKey : Type :=
| KString (p : string)
| KSymbol (s : nat).

(** [createProxy(keyChain)]: a new proxy with an empty [getters] map. *)
Definition createProxy (keyChain : list string) (h : list node) : nat * list node :=
  (List.length h, (h ++ [Node keyChain ∅])%list).

(** [mapHelper(m, key, data)] for the map [m] of the proxy [owner]: the
    stored value when the key is present, otherwise the value [data()]
    makes, which is stored. *)
Definition mapHelper (owner : nat) (key : string) (data : list node -> nat * list node)
    (h : list node) : nat * list node :=
  match h !! owner with
  | Some n =>
      match getters n !! key with
      | Some o => (o, h)
      | None =>
          let (o, h') := data h in
          (o, alter (fun n' => Node (keyChain n') (<[key := o]> (getters n'))) owner h')
      end
  | None => data h
  end.

(** The [get] trap of the handler, for the proxy [p]: [None] is [null]. *)
Definition get_trap (p : nat) (key : PropertyKey) (h : list node) : option nat * list node :=
  match key with
  | KSymbol _ => (None, h)
  | KString k =>
      let chain := default [] (keyChain <$> h !! p) in
      let (o, h') := mapHelper p k (createProxy (chain ++ [k])%list) h in
      (Some o, h')
  end.

(** The completion of a property read on a proxy. *)
Inductive read_completion : Type :=
| Value (o : option nat)
| TypeError.

(** [proxy[key]]: the [get] trap runs, and the proxy checks its answer
    against the target, [class { }].  The target's [prototype] is an own
    data property that is neither writable nor configurable, so the read
    must report that very object: the sub-proxy the trap answers with is
    refused with a [TypeError], after the trap has created and stored it.
    The target's other own properties, [length] and [name], are
    configurable, and it has no own symbol property. *)
Definition Get (p : nat) (key : PropertyKey) (h : list node)
    : read_completion * list node :=
  let (o, h') := get_trap p key h in
  match key with
  | KString k => if String.eqb k "prototype" then (TypeError, h') else (Value o, h')
  | KSymbol _ => (Value o, h')
  end.

(** The heap right after [wrap]: the root proxy. *)
Definition root_heap : list node := [Node [] ∅].

(** Every stored sub-proxy exists and carries its owner's chain extended
    by the key it is stored under. *)
Definition well_formed (h : list node) : Prop :=
  forall p n k o,
    h !! p = Some n -> getters n !! k = Some o ->
    exists n', h !! o = Some n' /\ keyChain n' = (keyChain n ++ [k])%list.

End ProxyHeap.

(** ** Sanity checks of the value model *)

Example includes_myconstructor : includes "myconstructor" "constructor" = true.
Proof. reflexivity. Qed.

Example includes_proto_not_prototype : includes "__proto__" "prototype" = false.
Proof. reflexivity. Qed.

Example array_get_1 : get (VArr [VNum 7; VNum 8; VNum 9]) "1" = VNum 8.
Proof. reflexivity. Qed.

Example array_get_01 : get (VArr [VNum 7; VNum 8; VNum 9]) "01" = VUndefined.
Proof. reflexivity. Qed.

Example array_length : get (VArr [VNum 7; VNum 8; VNum 9]) "length" = VNum 3.
Proof. reflexivity. Qed.

(** ** Basic facts *)

Ltac unfold_M :=
  unfold mbind, M_bind, mret, M_ret, throw, suspend, try_catch, modify, gets in *.

Lemma strict_eq_true a b : strict_eq a b = true -> a = b.
Proof.
  destruct a, b; simpl; try discriminate; intros H; try reflexivity.
  - apply Bool.eqb_prop in H. congruence.
  - apply Z.eqb_eq in H. congruence.
  - apply String.eqb_eq in H. congruence.
Qed.

Lemma strict_eq_sym a b : strict_eq a b = strict_eq b a.
Proof.
  destruct a, b; simpl; try reflexivity.
  - destruct b0, b; reflexivity.
  - apply Z.eqb_sym.
  - apply String.eqb_sym.
Qed.

(** A truthy value of type "object": anything but [null] among the objects. *)
Lemma truthy_object m :
  truthy m && is_object m = true <-> m <> VNull /\ typeof m = "object".
Proof.
  unfold is_object. split.
  - intros H. apply andb_true_iff in H as [Ht Ho]. apply String.eqb_eq in Ho.
    split; [intros -> | assumption]. discriminate.
  - intros [Hn Ho]. destruct m; simpl in *; try discriminate; congruence.
Qed.

(** A value with a string in its [type] field is a plain object. *)
Lemma has_type_field data t :
  get data "type" = VStr t -> exists props, data = VObj props.
Proof.
  destruct data; simpl; try discriminate; eauto.
Qed.

(** ** The sub-channel multiplexer *)

(** The filter of [channelListener]: an incoming message [m] is surfaced,
    as [x], exactly when [m] is a non-null object with [m.channel === t],
    and then [x] is the data of the event made from [m.payload]; a message
    surfaced for tag [t] is not surfaced for a tag [u] with [u !== t]. *)
Lemma channelListener_filter (t u m : value) :
  (forall x, channelListener t m = Some x <->
        (m <> VNull /\ typeof m = "object")
        /\ strict_eq (get m "channel") t = true
        /\ x = MessageEvent_data (get m "payload"))
  /\ (strict_eq u t = false -> strict_eq (get m "channel") t = true ->
      channelListener u m = None).
Proof.
  split.
  - intros x. unfold channelListener. rewrite <- truthy_object.
    destruct (truthy m && is_object m); simpl.
    + destruct (strict_eq (get m "channel") t); split.
      * intros [= <-]. auto.
      * intros (_ & _ & ->). reflexivity.
      * discriminate.
      * intros (_ & [=] & _).
    + split; [discriminate | intros ([=] & _)].
  - intros Hne Hm. unfold channelListener.
    apply strict_eq_true in Hm. rewrite Hm, (strict_eq_sym t u), Hne.
    now rewrite andb_false_r.
Qed.

Lemma postMessage_wire (ep : endpoint) :
  forall data st,
    postMessage ep data st =
    (Done tt,
     Realm (uniqueInRealmId st) (uuids_drawn st) (promises st) (promiseMap st)
           (settled st) (res_calls st) (listeners st) (posted st ++ [wire ep data])
           (walked st) (console st)).
Proof.
  revert ep. fix IH 1. intros [n | parent channelName] data st; simpl.
  - reflexivity.
  - apply IH.
Qed.

(** ** Relations that hold along every run *)

Section Always.

Variable R : realm -> realm -> Prop.
Hypothesis R_refl : forall st, R st st.
Hypothesis R_trans : forall st1 st2 st3, R st1 st2 -> R st2 st3 -> R st1 st3.

Lemma always_ret {A} (a : A) : always R (mret a).
Proof. intros st. apply R_refl. Qed.

Lemma always_throw {A} (e : value) : always R (@throw A e).
Proof. intros st. apply R_refl. Qed.

Lemma always_suspend {A} : always R (@suspend A).
Proof. intros st. apply R_refl. Qed.

Lemma always_bind {A B} (m : M A) (f : A -> M B) :
  always R m -> (forall a, always R (f a)) -> always R (m ≫= f).
Proof.
  intros Hm Hf st. unfold_M. specialize (Hm st).
  destruct (m st) as [[a | e |] st1]; simpl in *; try assumption.
  eapply R_trans; [exact Hm | apply Hf].
Qed.

Lemma always_try_catch {A} (body : M A) (handler : value -> M A) :
  always R body -> (forall e, always R (handler e)) -> always R (try_catch body handler).
Proof.
  intros Hm Hh st. unfold try_catch. specialize (Hm st).
  destruct (body st) as [[a | e |] st1]; simpl in *; try assumption.
  eapply R_trans; [exact Hm | apply Hh].
Qed.

Lemma always_mapM {A B} (f : A -> M B) (l : list A) :
  (forall a, always R (f a)) -> always R (mapM f l).
Proof.
  intros Hf. induction l as [| x l IH]; simpl.
  - apply always_ret.
  - apply always_bind; [apply Hf | intros y].
    apply always_bind; [exact IH | intros ys]. apply always_ret.
Qed.

End Always.

Lemma same_promises_refl st : same_promises st st.
Proof. repeat split. Qed.

Lemma same_promises_trans st1 st2 st3 :
  same_promises st1 st2 -> same_promises st2 st3 -> same_promises st1 st3.
Proof. intros (? & ? & ? & ?) (? & ? & ? & ?). repeat split; congruence. Qed.

Lemma keeps_consistent_refl st : keeps_consistent st st.
Proof. intros H; exact H. Qed.

Lemma keeps_consistent_trans st1 st2 st3 :
  keeps_consistent st1 st2 -> keeps_consistent st2 st3 -> keeps_consistent st1 st3.
Proof. unfold keeps_consistent. auto. Qed.

Lemma consistent_same_promises st st' :
  same_promises st st' -> consistent st -> consistent st'.
Proof.
  intros (Hp & Hm & Hs & Hr) [Hc1 Hc2 Hc3 Hc4 H1 H2 H3 H4 H5].
  split; unfold settled_promises, called_promises in *; rewrite ?Hp, ?Hm, ?Hs, ?Hr;
    assumption.
Qed.

Lemma always_same_keeps {A} (m : M A) :
  always same_promises m -> always keeps_consistent m.
Proof. intros H st Hc. eapply consistent_same_promises; [apply H | exact Hc]. Qed.

Lemma advances_refl st : advances st st.
Proof. split; lia. Qed.

Lemma advances_trans st1 st2 st3 :
  advances st1 st2 -> advances st2 st3 -> advances st1 st3.
Proof. intros [] []; split; lia. Qed.

Create HintDb always discriminated.

Ltac always_step :=
  first [ apply always_ret | apply always_throw | apply always_suspend
        | apply always_bind | apply always_try_catch | apply always_mapM ].

Ltac always_auto :=
  repeat first [ exact same_promises_refl | exact same_promises_trans
               | exact keeps_consistent_refl | exact keeps_consistent_trans
               | exact advances_refl | exact advances_trans
               | progress intros
               | solve [auto with always]
               | always_step
               | match goal with
                 | |- always _ (if ?b then _ else _) => destruct b
                 | |- always _ (match ?x with _ => _ end) => destruct x
                 end
               | apply always_same_keeps; solve [auto with always] ].

(** *** Steps that leave the promise state alone *)

Lemma addEventListener_frame r : always same_promises (addEventListener r).
Proof. intros st. repeat split. Qed.

Lemma console_error_frame e : always same_promises (console_error e).
Proof. intros st. repeat split. Qed.

Lemma log_walk_frame obj p : always same_promises (log_walk obj p).
Proof. intros st. repeat split. Qed.

Lemma postMessage_frame ep data : always same_promises (postMessage ep data).
Proof. intros st. rewrite postMessage_wire. repeat split. Qed.

Lemma getId_frame randomUUID : always same_promises (getId randomUUID).
Proof.
  intros st. unfold getId.
  destruct (MAX_SAFE_INTEGER - 1000 <? uniqueInRealmId st); repeat split.
Qed.

#[export] Hint Resolve addEventListener_frame console_error_frame log_walk_frame
  postMessage_frame getId_frame : always.

Lemma createChannel_frame ep name : always same_promises (createChannel ep name).
Proof. unfold createChannel. always_auto. Qed.

Lemma expose_frame obj ep : always same_promises (expose obj ep).
Proof. unfold expose. always_auto. Qed.

Lemma wrap_frame ep : always same_promises (wrap ep).
Proof. unfold wrap. always_auto. Qed.

Lemma read_frame v k : always same_promises (read v k).
Proof. unfold read. always_auto. Qed.

#[export] Hint Resolve createChannel_frame expose_frame wrap_frame read_frame : always.

Lemma assertValidKeyChain_frame keyChain :
  always same_promises (assertValidKeyChain keyChain).
Proof. unfold assertValidKeyChain. always_auto. Qed.

#[export] Hint Resolve assertValidKeyChain_frame : always.

Lemma assertValidRPCCall_frame data : always same_promises (assertValidRPCCall data).
Proof. unfold assertValidRPCCall. always_auto. Qed.

Lemma assertValidRPCResponse_frame data :
  always same_promises (assertValidRPCResponse data).
Proof. unfold assertValidRPCResponse. always_auto. Qed.

Lemma assertIsFunction_frame target name :
  always same_promises (assertIsFunction target name).
Proof. unfold assertIsFunction. always_auto. Qed.

Lemma assertPropertyExists_frame obj property :
  always same_promises (assertPropertyExists obj property).
Proof. unfold assertPropertyExists. always_auto. Qed.

#[export] Hint Resolve assertValidRPCCall_frame assertValidRPCResponse_frame
  assertIsFunction_frame assertPropertyExists_frame : always.

Lemma wrapArg_frame randomUUID data ep w :
  always same_promises (wrapArg randomUUID data ep w).
Proof. unfold wrapArg. always_auto. Qed.

Lemma unwrapArg_frame data ep : always same_promises (unwrapArg data ep).
Proof. unfold unwrapArg. always_auto. Qed.

#[export] Hint Resolve wrapArg_frame unwrapArg_frame : always.

Lemma wrapArgs_frame randomUUID args ep :
  always same_promises (wrapArgs randomUUID args ep).
Proof. unfold wrapArgs. always_auto. Qed.

Lemma walk_frame keyChain : forall obj, always same_promises (walk obj keyChain).
Proof. induction keyChain as [| p rest IH]; intros obj; simpl; always_auto. Qed.

#[export] Hint Resolve wrapArgs_frame walk_frame : always.

Lemma getKeyChain_frame obj keyChain : always same_promises (getKeyChain obj keyChain).
Proof. unfold getKeyChain. always_auto. Qed.

#[export] Hint Resolve getKeyChain_frame : always.

(** *** Steps that change the promise state *)

Lemma new_promise_keeps : always keeps_consistent new_promise.
Proof.
  intros st [Hc1 Hc2 Hc3 Hc4 H1 H2 H3 H4 H5]. split; simpl; try assumption.
  - intros p Hp. specialize (Hc4 p Hp). lia.
  - intros i p Hp. destruct (H2 i p Hp). split; [lia | assumption].
  - intros p Hp. specialize (H4 p Hp). lia.
Qed.

Lemma createPromise_keeps id : always keeps_consistent (createPromise id).
Proof.
  intros st [Hc1 Hc2 Hc3 Hc4 H1 H2 H3 H4 H5]. split; simpl; try assumption.
  - intros i p. rewrite lookup_insert. case_decide as Hi.
    + intros [= <-]. intros Hin. specialize (Hc4 _ Hin). lia.
    + apply Hc2.
  - intros p Hp. specialize (Hc4 p Hp). lia.
  - intros i p. rewrite lookup_insert. case_decide as Hi.
    + intros [= <-]. split; [lia |]. intros Hin. specialize (H4 _ Hin). lia.
    + intros Hp. destruct (H2 i p Hp). split; [lia | assumption].
  - intros i j p. rewrite !lookup_insert. repeat case_decide; subst.
    + reflexivity.
    + intros [= <-] Hp. destruct (H2 _ _ Hp). lia.
    + intros Hp [= <-]. destruct (H2 _ _ Hp). lia.
    + apply H3.
  - intros p Hp. specialize (H4 p Hp). lia.
Qed.

Lemma fulfilments_app (l1 l2 : list (nat * value)) :
  fulfilments (l1 ++ l2) = (fulfilments l1 ++ fulfilments l2)%list.
Proof. unfold fulfilments. apply omap_app. Qed.

Lemma fulfilments_single (p : nat) (v : value) :
  fulfilments [(p, v)] = if thenable v then [] else [(p, Fulfilled v)].
Proof. unfold fulfilments. simpl. destruct (thenable v); reflexivity. Qed.

(** The lookup-resolve-delete block of the client handler. *)
Lemma settle_keeps (id res : value) :
  always keeps_consistent
    (p ← promiseMap_get id;
     match p with
     | Some p => call_res p res;; promiseMap_delete id
     | None => mret tt
     end).
Proof.
  intros st Hc. unfold_M. unfold promiseMap_get, call_res, promiseMap_delete. unfold_M.
  simpl. destruct (ident_of_value id) as [i |] eqn:Hi; simpl; [| exact Hc].
  destruct (promiseMap st !! i) as [p |] eqn:Hp; simpl; [| exact Hc].
  rewrite ?Hi. destruct Hc as [Hc1 Hc2 Hc3 Hc4 H1 H2 H3 H4 H5].
  destruct (H2 i p Hp) as [Hlt Hnot]. pose proof (Hc2 i p Hp) as Hnotc.
  assert (Hsub : forall q, q ∈ fst <$> (if thenable res then [] else [(p, Fulfilled res)])
                           -> q = p).
  { intros q Hq. destruct (thenable res); simpl in Hq.
    - apply elem_of_nil in Hq. contradiction.
    - apply list_elem_of_singleton in Hq. exact Hq. }
  split; unfold settled_promises, called_promises in *; simpl.
  - rewrite fmap_app. simpl. apply NoDup_app. split; [assumption |].
    split; [| apply NoDup_singleton].
    intros q Hq Hq'. apply list_elem_of_singleton in Hq'. congruence.
  - intros j q Hq. apply lookup_delete_Some in Hq as [Hne Hq].
    rewrite fmap_app. simpl. intros Hin. apply elem_of_app in Hin as [Hin | Hin].
    + exact (Hc2 j q Hq Hin).
    + apply list_elem_of_singleton in Hin. subst q. apply Hne. eapply H3; eassumption.
  - rewrite fulfilments_app, fulfilments_single, Hc3. reflexivity.
  - intros q. rewrite fmap_app. simpl. intros Hin.
    apply elem_of_app in Hin as [Hin | Hin]; [auto |].
    apply list_elem_of_singleton in Hin. congruence.
  - rewrite fmap_app. apply NoDup_app. split; [assumption |]. split.
    + intros q Hq Hq'. apply Hsub in Hq'. congruence.
    + destruct (thenable res); simpl; [constructor | apply NoDup_singleton].
  - intros j q Hq. apply lookup_delete_Some in Hq as [Hne Hq].
    destruct (H2 j q Hq) as [Hlt' Hnot']. split; [assumption |].
    rewrite fmap_app. intros Hin. apply elem_of_app in Hin as [Hin | Hin].
    + contradiction.
    + apply Hsub in Hin. subst q. apply Hne. eapply H3; eassumption.
  - intros j k q Hj Hk. apply lookup_delete_Some in Hj as [_ Hj].
    apply lookup_delete_Some in Hk as [_ Hk]. eapply H3; eassumption.
  - intros q. rewrite fmap_app. intros Hin.
    apply elem_of_app in Hin as [Hin | Hin]; [auto |].
    apply Hsub in Hin. congruence.
  - intros q s Hin. apply elem_of_app in Hin as [Hin | Hin]; [eauto |].
    destruct (thenable res); simpl in Hin.
    + apply elem_of_nil in Hin. contradiction.
    + apply list_elem_of_singleton in Hin. injection Hin as -> ->. eauto.
Qed.

#[export] Hint Resolve new_promise_keeps createPromise_keeps settle_keeps : always.

Lemma proxy_apply_keeps randomUUID ep keyChain args :
  always keeps_consistent (proxy_apply randomUUID ep keyChain args).
Proof. unfold proxy_apply. always_auto. Qed.

Lemma proxy_construct_keeps randomUUID ep keyChain args :
  always keeps_consistent (proxy_construct randomUUID ep keyChain args).
Proof. unfold proxy_construct. always_auto. Qed.

#[export] Hint Resolve proxy_apply_keeps proxy_construct_keeps : always.

Lemma perform_keeps randomUUID ep op :
  always keeps_consistent (perform randomUUID ep op).
Proof. destruct op; simpl; auto with always. Qed.

Lemma await_call_keeps randomUUID call_fn fn args :
  always keeps_consistent (await_call randomUUID call_fn fn args).
Proof. unfold await_call. always_auto. Qed.

Lemma construct_keeps randomUUID construct_fn c args :
  always keeps_consistent (construct randomUUID construct_fn c args).
Proof. unfold construct. always_auto. Qed.

#[export] Hint Resolve perform_keeps await_call_keeps construct_keeps : always.

Lemma client_handler_keeps ep data : always keeps_consistent (client_handler ep data).
Proof. unfold client_handler. always_auto. Qed.

Lemma server_handler_keeps randomUUID call_fn construct_fn obj ep data :
  always keeps_consistent (server_handler randomUUID call_fn construct_fn obj ep data).
Proof. unfold server_handler. always_auto. Qed.

Lemma initial_realm_consistent : consistent initial_realm.
Proof.
  split; unfold settled_promises, called_promises; simpl.
  - constructor.
  - intros i p Hp. rewrite lookup_empty in Hp. discriminate.
  - reflexivity.
  - intros p Hp. apply elem_of_nil in Hp. contradiction.
  - constructor.
  - intros i p Hp. rewrite lookup_empty in Hp. discriminate.
  - intros i j p Hp. rewrite lookup_empty in Hp. discriminate.
  - intros p Hp. apply elem_of_nil in Hp. contradiction.
  - intros p s Hp. apply elem_of_nil in Hp. contradiction.
Qed.

Lemma step_consistent randomUUID call_fn construct_fn st ev :
  consistent st -> consistent (step randomUUID call_fn construct_fn st ev).
Proof.
  intros Hc. destruct ev; simpl; unfold run.
  - apply (always_same_keeps _ (wrap_frame ep)), Hc.
  - apply (always_same_keeps _ (expose_frame obj ep)), Hc.
  - apply perform_keeps, Hc.
  - apply client_handler_keeps, Hc.
  - apply server_handler_keeps, Hc.
Qed.

Lemma after_consistent randomUUID call_fn construct_fn evs :
  consistent (after randomUUID call_fn construct_fn evs).
Proof.
  unfold after. induction evs as [| ev evs IH] using rev_ind; simpl.
  - apply initial_realm_consistent.
  - rewrite foldl_app. simpl. apply step_consistent, IH.
Qed.

(** *** Every step only moves the allocator forward *)

Lemma addEventListener_advances r : always advances (addEventListener r).
Proof. intros st. split; simpl; lia. Qed.

Lemma console_error_advances e : always advances (console_error e).
Proof. intros st. split; simpl; lia. Qed.

Lemma log_walk_advances obj p : always advances (log_walk obj p).
Proof. intros st. split; simpl; lia. Qed.

Lemma postMessage_advances ep data : always advances (postMessage ep data).
Proof. intros st. rewrite postMessage_wire. split; simpl; lia. Qed.

Lemma getId_advances randomUUID : always advances (getId randomUUID).
Proof.
  intros st. unfold getId.
  destruct (MAX_SAFE_INTEGER - 1000 <? uniqueInRealmId st); split; simpl; lia.
Qed.

Lemma new_promise_advances : always advances new_promise.
Proof. intros st. split; simpl; lia. Qed.

Lemma promiseMap_set_advances id p : always advances (promiseMap_set id p).
Proof. intros st. split; simpl; lia. Qed.

Lemma promiseMap_get_advances id : always advances (promiseMap_get id).
Proof. intros st. split; simpl; lia. Qed.

Lemma promiseMap_delete_advances id : always advances (promiseMap_delete id).
Proof. intros st. split; simpl; lia. Qed.

Lemma call_res_advances p v : always advances (call_res p v).
Proof. intros st. split; simpl; lia. Qed.

#[export] Hint Resolve addEventListener_advances console_error_advances log_walk_advances
  postMessage_advances getId_advances new_promise_advances promiseMap_set_advances
  promiseMap_get_advances promiseMap_delete_advances call_res_advances : always.

Ltac unfold_bridge :=
  unfold server_handler, client_handler, await_call, construct, getKeyChain,
    proxy_apply, proxy_construct, createPromise, unwrapArg, wrap, wrapArgs, wrapArg,
    expose, createChannel, read, assertPropertyExists, assertIsFunction,
    assertValidRPCResponse, assertValidRPCCall, assertValidKeyChain.

Lemma walk_advances keyChain : forall obj, always advances (walk obj keyChain).
Proof.
  induction keyChain as [| p rest IH]; intros obj; simpl; unfold_bridge; always_auto.
Qed.

#[export] Hint Resolve walk_advances : always.

Lemma perform_advances randomUUID ep op : always advances (perform randomUUID ep op).
Proof. destruct op; simpl; unfold_bridge; always_auto. Qed.

Lemma step_advances randomUUID call_fn construct_fn st ev :
  advances st (step randomUUID call_fn construct_fn st ev).
Proof.
  destruct ev; simpl; unfold run.
  - revert st. change (always advances (wrap ep)). unfold_bridge. always_auto.
  - revert st. change (always advances (expose obj ep)). unfold_bridge. always_auto.
  - apply perform_advances.
  - revert st. change (always advances (client_handler ep data)).
    unfold_bridge. always_auto.
  - revert st.
    change (always advances (server_handler randomUUID call_fn construct_fn obj ep data)).
    unfold_bridge. always_auto.
Qed.

(** *** What one run of the client handler does to the promise state *)

Lemma assertValidRPCResponse_inv data st st0 :
  assertValidRPCResponse data st = (Done tt, st0) ->
  st0 = st /\ get data "type" = VStr "response".
Proof.
  unfold assertValidRPCResponse.
  destruct (negb (truthy data) || negb (is_object data)); [discriminate |].
  destruct (strict_eq (get data "type") (VStr "response")) eqn:Hty;
    [| rewrite orb_true_r; discriminate].
  destruct (String.eqb _ _); [discriminate |]. simpl.
  intros [= <-]. split; [reflexivity | apply strict_eq_true, Hty].
Qed.

(** Either the promise state is untouched, or the message is a bare
    response whose id is the key of a pending entry and whose data can be
    decoded: then the resolve function of that entry is called, once, with
    the decoded data, which fulfils the promise unless the data is a
    thenable, and the entry is deleted. *)
Lemma client_handler_effect ep data st :
  same_promises st (run (client_handler ep data) st)
  \/ exists i p v,
      get data "type" = VStr "response"
      /\ truthy (get data "channel") = false
      /\ ident_of_value (get data "id") = Some i
      /\ promiseMap st !! i = Some p
      /\ fst (unwrapArg (get data "data") ep st) = Done v
      /\ res_calls (run (client_handler ep data) st) = (res_calls st ++ [(p, v)])%list
      /\ settled (run (client_handler ep data) st)
         = (settled st ++ (if thenable v then [] else [(p, Fulfilled v)]))%list
      /\ promiseMap (run (client_handler ep data) st) = delete i (promiseMap st)
      /\ promises (run (client_handler ep data) st) = promises st.
Proof.
  remember (run (client_handler ep data) st) as st' eqn:Hrun.
  unfold run, client_handler in Hrun.
  destruct (truthy data && negb (truthy (get data "channel"))) eqn:Hguard;
    [| left; subst st'; apply same_promises_refl].
  apply andb_true_iff in Hguard as [_ Hbare]. apply negb_true_iff in Hbare.
  unfold try_catch in Hrun. unfold mbind at 1, M_bind at 1 in Hrun.
  pose proof (assertValidRPCResponse_frame data st) as Hf0.
  destruct (assertValidRPCResponse data st) as [[[] | e |] st0] eqn:Hvalid; simpl in Hf0.
  2: { left. subst st'. eapply same_promises_trans; [exact Hf0 | apply console_error_frame]. }
  2: { left. subst st'. exact Hf0. }
  apply assertValidRPCResponse_inv in Hvalid as [-> Hty].
  unfold mbind at 1, M_bind at 1 in Hrun.
  pose proof (unwrapArg_frame (get data "data") ep st) as Hf1.
  destruct (unwrapArg (get data "data") ep st) as [[res | e |] st1] eqn:Hun; simpl in Hf1.
  2: { left. subst st'. eapply same_promises_trans; [exact Hf1 | apply console_error_frame]. }
  2: { left. subst st'. exact Hf1. }
  destruct Hf1 as (Hp1 & Hm1 & Hs1 & Hr1).
  unfold_M. unfold promiseMap_get, call_res, promiseMap_delete in Hrun. unfold_M.
  simpl in Hrun.
  destruct (ident_of_value (get data "id")) as [i |] eqn:Hi; simpl in Hrun;
    [| left; subst st'; repeat split; assumption].
  destruct (promiseMap st1 !! i) as [p |] eqn:Hp; simpl in Hrun;
    [| left; subst st'; repeat split; assumption].
  right. exists i, p, res. subst st'. simpl. rewrite <- Hm1, <- Hs1, <- Hr1.
  repeat split; auto.
Qed.

(** ** The codec and the two handlers, step by step *)

Section Properties.

Variable randomUUID : nat -> string.
Variable call_fn : nat -> list value -> call_result.
Variable construct_fn : nat -> list value -> completion.

(** C8.  A value that is not a function and has no function among its own
    enumerable values is encoded inline, as [{type: 'any', data: v}],
    without touching the realm, and decoding that gives [v] back; so
    decoding after encoding returns [v]. *)
Theorem decode_encode_inline (v : value) (ep : endpoint) (st : realm) :
  is_function v = false ->
  existsb is_function (Object_values v) = false ->
  wrapArg randomUUID v ep false st = (Done (any v), st)
  /\ unwrapArg (any v) ep st = (Done v, st)
  /\ (d ← wrapArg randomUUID v ep false; unwrapArg d ep) st = (Done v, st).
Proof.
  intros Hf Hv.
  assert (Hw : wrapArg randomUUID v ep false st = (Done (any v), st)).
  { unfold wrapArg, must_wrap. rewrite Hf, Hv. unfold markedObj_has.
    destruct (_ && _); reflexivity. }
  split; [exact Hw |]. split; [reflexivity |].
  unfold_M. rewrite Hw. reflexivity.
Qed.

(** The forcing flag of [wrapArg] is overwritten by the probe of the own
    values: a plain object without function values is inlined even when
    [wrap] is passed as [true]. *)
Lemma wrapArg_forced_plain_object (props : list (string * value)) (ep : endpoint)
      (st : realm) :
  existsb is_function (map snd props) = false ->
  wrapArg randomUUID (VObj props) ep true st = (Done (any (VObj props)), st).
Proof.
  intros Hv. unfold wrapArg, must_wrap. simpl. rewrite Hv. reflexivity.
Qed.

(** C7, amended.  A message with a truthy [channel] field is skipped by
    both handlers: the realm is unchanged (no validator run, no chain walk,
    no reply, no promise settled). *)
Theorem channel_tagged_ignored (obj : value) (ep : endpoint) (data : value)
      (st : realm) :
  truthy (get data "channel") = true ->
  server_handler randomUUID call_fn construct_fn obj ep data st = (Done tt, st)
  /\ client_handler ep data st = (Done tt, st).
Proof.
  intros Hc. unfold server_handler, client_handler.
  rewrite Hc. simpl. rewrite andb_false_r. split; reflexivity.
Qed.

(** The validator accepts a request whose type is a non-empty string other
    than "call" and "construct" as soon as the id is defined and the key
    chain is safe. *)
Lemma assertValidRPCCall_other_type (data : value) (t : string) (keys : list value)
      (st : realm) :
  typeof (get data "id") <> "undefined" ->
  get data "type" = VStr t ->
  t <> "" -> t <> "call" -> t <> "construct" ->
  get data "keyChain" = VArr keys ->
  existsb unsafe_key keys = false ->
  assertValidRPCCall data st = (Done tt, st).
Proof.
  intros Hid Hty Hne Hcall Hcons Hkc Hsafe.
  destruct (has_type_field _ _ Hty) as [props ->].
  unfold assertValidRPCCall. simpl truthy. simpl is_object. simpl negb. simpl orb.
  rewrite Hty, Hkc.
  apply String.eqb_neq in Hid, Hne, Hcall, Hcons.
  rewrite Hid. simpl. rewrite Hne. simpl.
  unfold_M. simpl. rewrite Hsafe, Hcall, Hcons. reflexivity.
Qed.

(** C10, amended.  A bare message with a defined id, a safe key chain and a
    type that is a non-empty string other than "await", "call" and
    "construct" is dropped by the dispatcher: nothing is posted and the
    realm is unchanged. *)
Theorem unknown_type_no_reply (obj : value) (ep : endpoint) (data : value)
      (t : string) (keys : list value) (st : realm) :
  truthy (get data "channel") = false ->
  typeof (get data "id") <> "undefined" ->
  get data "type" = VStr t ->
  t <> "" -> t <> "await" -> t <> "call" -> t <> "construct" ->
  get data "keyChain" = VArr keys ->
  existsb unsafe_key keys = false ->
  server_handler randomUUID call_fn construct_fn obj ep data st = (Done tt, st).
Proof.
  intros Hc Hid Hty Hne Haw Hcall Hcons Hkc Hsafe.
  pose proof (assertValidRPCCall_other_type data t keys st Hid Hty Hne Hcall Hcons Hkc Hsafe)
    as Hvalid.
  destruct (has_type_field _ _ Hty) as [props ->].
  unfold server_handler. rewrite Hc. cbn [truthy negb andb].
  unfold_M. rewrite Hvalid. rewrite Hty. simpl.
  apply String.eqb_neq in Haw, Hcall, Hcons. rewrite Haw, Hcall, Hcons.
  reflexivity.
Qed.

(** The validator throws on every message with an unsafe key chain, and
    leaves the realm as it was. *)
Lemma assertValidRPCCall_unsafe (data : value) (keys : list value) (st : realm) :
  get data "keyChain" = VArr keys ->
  existsb unsafe_key keys = true ->
  exists e, assertValidRPCCall data st = (Thrown (VError e), st)
    /\ (typeof (get data "id") <> "undefined" -> truthy (get data "type") = true ->
        e = unsafe_message).
Proof.
  intros Hkc Hbad. unfold assertValidRPCCall.
  destruct (negb (truthy data) || negb (is_object data)) eqn:Hobj.
  - eexists; split; [reflexivity |]. intros Hid _.
    destruct data; simpl in *; try discriminate; congruence.
  - destruct (String.eqb (typeof (get data "id")) "undefined") eqn:Hid; simpl.
    + eexists; split; [reflexivity |]. apply String.eqb_eq in Hid. congruence.
    + destruct (truthy (get data "type")) eqn:Hty; simpl.
      * rewrite Hkc. unfold_M. simpl. rewrite Hbad.
        eexists; split; reflexivity.
      * eexists; split; [reflexivity | discriminate].
Qed.

(** What the dispatcher does with a thrown [Error]: log it and post the
    error reply. *)
Lemma error_path (ep : endpoint) (data : value) (e : string) (st : realm) :
  (console_error (VError e);;
   try_catch
     (message ← read (VError e) "message";
      postMessage ep (error_message (get data "id") message))
     (fun sendError => console_error sendError)) st =
  (Done tt,
   Realm (uniqueInRealmId st) (uuids_drawn st) (promises st) (promiseMap st)
         (settled st) (res_calls st) (listeners st)
         (posted st ++ [wire ep (error_message (get data "id") (VStr e))])
         (walked st) (console st ++ [VError e])).
Proof.
  unfold_M. unfold console_error, read. unfold_M. simpl.
  rewrite postMessage_wire. reflexivity.
Qed.

(** C4, amended.  An inbound message whose [keyChain] is an array with an
    element that is not a string or contains "__proto__", "prototype" or
    "constructor" never starts the chain walk, whatever else it carries.
    When the message is bare and has a defined id and a truthy type, the
    dispatcher logs the error and posts exactly [{id, type: 'error', error}]
    with the text "Invalid keyChain: contains unsafe property names". *)
Theorem unsafe_chain_rejected (obj : value) (ep : endpoint) (data : value)
      (keys : list value) (st : realm) :
  get data "keyChain" = VArr keys ->
  existsb unsafe_key keys = true ->
  walked (run (server_handler randomUUID call_fn construct_fn obj ep data) st) = walked st
  /\ (truthy (get data "channel") = false ->
      typeof (get data "id") <> "undefined" ->
      truthy (get data "type") = true ->
      includes unsafe_message "unsafe property names" = true
      /\ server_handler randomUUID call_fn construct_fn obj ep data st =
         (Done tt,
          Realm (uniqueInRealmId st) (uuids_drawn st) (promises st) (promiseMap st)
                (settled st) (res_calls st) (listeners st)
                (posted st ++
                   [wire ep (error_message (get data "id") (VStr unsafe_message))])
                (walked st) (console st ++ [VError unsafe_message]))).
Proof.
  intros Hkc Hbad.
  destruct (assertValidRPCCall_unsafe data keys st Hkc Hbad) as (e & Hthrow & He).
  assert (Hrun : truthy data && negb (truthy (get data "channel")) = true ->
            server_handler randomUUID call_fn construct_fn obj ep data st =
            (Done tt,
             Realm (uniqueInRealmId st) (uuids_drawn st) (promises st) (promiseMap st)
                   (settled st) (res_calls st) (listeners st)
                   (posted st ++ [wire ep (error_message (get data "id") (VStr e))])
                   (walked st) (console st ++ [VError e]))).
  { intros Hin. unfold server_handler. rewrite Hin.
    rewrite <- error_path. unfold try_catch at 1. unfold mbind at 1, M_bind at 1.
    rewrite Hthrow. reflexivity. }
  split.
  - unfold run. destruct (truthy data && negb (truthy (get data "channel"))) eqn:Hin.
    + rewrite Hrun by reflexivity. reflexivity.
    + unfold server_handler. rewrite Hin. reflexivity.
  - intros Hc Hid Hty. split; [reflexivity |].
    rewrite <- (He Hid Hty). apply Hrun.
    rewrite Hc. destruct data; simpl in *; try reflexivity; congruence.
Qed.

(** *** The id allocator *)

Lemma issued_between_widen st1 st2 st3 st4 id :
  advances st1 st2 -> advances st3 st4 ->
  issued_between randomUUID st2 st3 id -> issued_between randomUUID st1 st4 id.
Proof.
  intros [] [] [(n & -> & ?) | (k & -> & ?)]; [left | right]; eexists;
    (split; [reflexivity | lia]).
Qed.

Lemma getId_counter st :
  uniqueInRealmId st <= MAX_SAFE_INTEGER - 1000 ->
  getId randomUUID st =
  (Done (IdNum (uniqueInRealmId st + 1)),
   Realm (uniqueInRealmId st + 1) (uuids_drawn st) (promises st) (promiseMap st)
         (settled st) (res_calls st) (listeners st) (posted st) (walked st) (console st)).
Proof.
  intros H. unfold getId.
  destruct (Z.ltb_spec (MAX_SAFE_INTEGER - 1000) (uniqueInRealmId st)); [lia | reflexivity].
Qed.

Lemma getId_random st :
  MAX_SAFE_INTEGER - 1000 < uniqueInRealmId st ->
  getId randomUUID st =
  (Done (IdStr (randomUUID (uuids_drawn st))),
   Realm (uniqueInRealmId st) (S (uuids_drawn st)) (promises st) (promiseMap st)
         (settled st) (res_calls st) (listeners st) (posted st) (walked st) (console st)).
Proof.
  intros H. unfold getId.
  destruct (Z.ltb_spec (MAX_SAFE_INTEGER - 1000) (uniqueInRealmId st)); [reflexivity | lia].
Qed.

Lemma getId_issued st :
  exists id st',
    getId randomUUID st = (Done id, st')
    /\ advances st st' /\ posted st' = posted st
    /\ issued_between randomUUID st st' (value_of_ident id).
Proof.
  destruct (Z.le_gt_cases (uniqueInRealmId st) (MAX_SAFE_INTEGER - 1000)) as [H | H].
  - rewrite (getId_counter st H). do 2 eexists. split; [reflexivity |].
    split; [split; simpl; lia |]. split; [reflexivity |].
    left. eexists. split; [reflexivity | simpl; lia].
  - rewrite (getId_random st H). do 2 eexists. split; [reflexivity |].
    split; [split; simpl; lia |]. split; [reflexivity |].
    right. eexists. split; [reflexivity | simpl; lia].
Qed.

(** Encoding an argument always finishes, posts nothing and only moves the
    allocator forward. *)
Lemma wrapArg_quiet data ep w st :
  exists d st',
    wrapArg randomUUID data ep w st = (Done d, st')
    /\ advances st st' /\ posted st' = posted st.
Proof.
  unfold wrapArg. destruct (must_wrap data w).
  - destruct (getId_issued st) as (id & st1 & Hid & Hadv & Hpost & _).
    unfold_M. rewrite Hid. simpl. do 2 eexists. split; [reflexivity |].
    simpl. auto.
  - do 2 eexists. split; [reflexivity |]. split; [apply advances_refl | reflexivity].
Qed.

Lemma wrapArgs_quiet args ep :
  forall st, exists ds st',
    wrapArgs randomUUID args ep st = (Done ds, st')
    /\ advances st st' /\ posted st' = posted st.
Proof.
  unfold wrapArgs. induction args as [| a args IH]; intros st; simpl.
  - do 2 eexists. split; [reflexivity |]. split; [apply advances_refl | reflexivity].
  - destruct (wrapArg_quiet a ep false st) as (d & st1 & Ha & Hadv1 & Hp1).
    destruct (IH st1) as (ds & st2 & Hrest & Hadv2 & Hp2).
    unfold_M. rewrite Ha, Hrest.
    do 2 eexists. split; [reflexivity |].
    split; [eapply advances_trans; eassumption | congruence].
Qed.

(** A terminal proxy operation always finishes.  It posts one request on
    its endpoint; the id of the request was handed out by [getId] during
    the operation and is the key under which the operation stores its
    new promise; nothing is settled. *)
Lemma perform_posts ep op st :
  exists p st' req i,
    perform randomUUID ep op st = (Done p, st')
    /\ advances st st'
    /\ posted st' = (posted st ++ [wire ep req])%list
    /\ issued_between randomUUID st st' (get req "id")
    /\ get req "id" = value_of_ident i
    /\ get req "id" = next_id randomUUID st
    /\ promiseMap st' = <[i := promises st]> (promiseMap st)
    /\ settled st' = settled st
    /\ res_calls st' = res_calls st.
Proof.
  destruct (getId_issued st) as (id & st1 & Hid & Hadv1 & Hp1 & Hissued).
  pose proof (getId_frame randomUUID st) as Hf1. rewrite Hid in Hf1.
  destruct Hf1 as (Hpr1 & Hm1 & Hs1 & Hr1). simpl in Hpr1, Hm1, Hs1, Hr1.
  set (st2 := Realm (uniqueInRealmId st1) (uuids_drawn st1) (S (promises st1))
                    (<[id := promises st1]> (promiseMap st1))
                    (settled st1) (res_calls st1) (listeners st1) (posted st1) (walked st1)
                    (console st1)).
  assert (Hcreate : createPromise id st1 = (Done (promises st1), st2)) by reflexivity.
  assert (Hadv2 : advances st st2) by (destruct Hadv1; split; simpl; lia).
  assert (Hcall : forall keyChain args (mk : value -> list string -> list value -> value),
             (forall ds, get (mk (value_of_ident id) keyChain ds) "id" = value_of_ident id) ->
             exists p st' req i,
               (id ← getId randomUUID;
                p ← createPromise id;
                args' ← wrapArgs randomUUID args ep;
                postMessage ep (mk (value_of_ident id) keyChain args');;
                mret (VPromise p)) st = (Done p, st')
               /\ advances st st'
               /\ posted st' = (posted st ++ [wire ep req])%list
               /\ issued_between randomUUID st st' (get req "id")
               /\ get req "id" = value_of_ident i
               /\ get req "id" = next_id randomUUID st
               /\ promiseMap st' = <[i := promises st]> (promiseMap st)
               /\ settled st' = settled st
               /\ res_calls st' = res_calls st).
  { intros keyChain args mk Hmk.
    destruct (wrapArgs_quiet args ep st2) as (ds & st3 & Hargs & Hadv3 & Hp3).
    pose proof (wrapArgs_frame randomUUID args ep st2) as Hf3. rewrite Hargs in Hf3.
    destruct Hf3 as (Hpr3 & Hm3 & Hs3 & Hr3). simpl in Hpr3, Hm3, Hs3, Hr3.
    unfold mbind at 1, M_bind at 1. rewrite Hid.
    unfold mbind at 1, M_bind at 1. rewrite Hcreate.
    unfold mbind at 1, M_bind at 1. rewrite Hargs.
    unfold mbind at 1, M_bind at 1. rewrite postMessage_wire.
    exists (VPromise (promises st1)). eexists. eexists. exists id.
    split; [reflexivity |]. simpl.
    split; [eapply advances_trans; eassumption |].
    split; [rewrite Hp3; simpl; rewrite Hp1; reflexivity |].
    rewrite Hmk. split.
    - eapply issued_between_widen; [apply advances_refl | | exact Hissued].
      eapply advances_trans; [| exact Hadv3]. destruct Hadv1; split; simpl; lia.
    - split; [reflexivity |]. split; [unfold next_id; now rewrite Hid |].
      rewrite Hm3, Hs3, Hr3, Hm1, Hs1, Hr1, Hpr1. auto. }
  destruct op as [keyChain args | keyChain args]; simpl.
  - unfold proxy_apply. destruct (last_is_then keyChain).
    + unfold mbind at 1, M_bind at 1. rewrite Hid.
      unfold mbind at 1, M_bind at 1. rewrite Hcreate.
      unfold mbind at 1, M_bind at 1. rewrite postMessage_wire.
      eexists. eexists. eexists. exists id. split; [reflexivity |]. simpl.
      split; [exact Hadv2 |]. split; [rewrite Hp1; reflexivity |]. split.
      * eapply issued_between_widen; [apply advances_refl | | exact Hissued].
        split; simpl; lia.
      * split; [reflexivity |]. split; [unfold next_id; now rewrite Hid |].
        rewrite Hm1, Hs1, Hr1, Hpr1. auto.
    + apply (Hcall keyChain args call_request). reflexivity.
  - unfold proxy_construct.
    apply (Hcall keyChain args construct_request). reflexivity.
Qed.

Lemma issued_disjoint st1 st2 st3 a b :
  (forall j k, randomUUID j = randomUUID k -> j = k) ->
  issued_between randomUUID st1 st2 a ->
  issued_between randomUUID st2 st3 b ->
  a <> b.
Proof.
  intros Hinj [(n & -> & Hn) | (j & -> & Hj)] [(m & -> & Hm) | (k & -> & Hk)];
    try discriminate.
  - intros [= ->]. lia.
  - intros [= Heq]. apply Hinj in Heq. lia.
Qed.

Lemma operation_ids_distinct evs :
  (forall j k, randomUUID j = randomUUID k -> j = k) ->
  forall st,
    Forall (issued_between randomUUID st
              (foldl (step randomUUID call_fn construct_fn) st evs))
           (operation_ids randomUUID call_fn construct_fn st evs)
    /\ NoDup (operation_ids randomUUID call_fn construct_fn st evs).
Proof.
  intros Hinj. induction evs as [| ev evs IH]; intros st; simpl.
  - split; constructor.
  - destruct (IH (step randomUUID call_fn construct_fn st ev)) as [Hissued Hnodup].
    pose proof (step_advances randomUUID call_fn construct_fn st ev) as Hadv.
    assert (Hrest : Forall (issued_between randomUUID st
                      (foldl (step randomUUID call_fn construct_fn)
                             (step randomUUID call_fn construct_fn st ev) evs))
                    (operation_ids randomUUID call_fn construct_fn
                       (step randomUUID call_fn construct_fn st ev) evs)).
    { eapply Forall_impl; [exact Hissued |]. intros id Hid.
      eapply issued_between_widen; [exact Hadv | apply advances_refl | exact Hid]. }
    assert (Hforward : advances (step randomUUID call_fn construct_fn st ev)
                         (foldl (step randomUUID call_fn construct_fn)
                                (step randomUUID call_fn construct_fn st ev) evs)).
    { clear. generalize (step randomUUID call_fn construct_fn st ev) as st0.
      induction evs as [| ev' evs IH]; intros st0; simpl; [apply advances_refl |].
      eapply advances_trans; [apply step_advances | apply IH]. }
    destruct ev as [ep | obj ep | ep op | ep data | obj ep data]; simpl;
      try (split; assumption).
    destruct (perform_posts ep op st)
      as (v & st1 & req & i & Hop & _ & _ & Hreq & _ & Hnext & _).
    rewrite <- Hnext in *.
    assert (Hst1 : run (perform randomUUID ep op) st = st1)
      by (unfold run; now rewrite Hop).
    simpl in Hissued, Hnodup, Hrest, Hforward. rewrite Hst1 in *. split.
    + constructor; [| exact Hrest].
      eapply issued_between_widen; [apply advances_refl | exact Hforward | exact Hreq].
    + constructor; [| exact Hnodup]. intros Hin. rewrite Forall_forall in Hissued.
      eapply issued_disjoint; [exact Hinj | exact Hreq | apply Hissued, Hin | reflexivity].
Qed.

(** C5.  While the counter is at most [MAX_SAFE_INTEGER - 1000], [getId]
    increments it and returns the new, larger, value; above that it returns
    the next draw of [crypto.randomUUID] and leaves the counter alone.
    Every proxy operation posts one request on its endpoint, with the id
    [getId] returns at that moment.  With draws of [randomUUID] that do not
    repeat, the ids of the requests issued along any sequence of events,
    on whatever endpoints and with whatever happens in between, are
    pairwise distinct. *)
Theorem request_ids_distinct :
  (forall j k, randomUUID j = randomUUID k -> j = k) ->
  (forall st,
      uniqueInRealmId st <= MAX_SAFE_INTEGER - 1000 ->
      getId randomUUID st =
      (Done (IdNum (uniqueInRealmId st + 1)),
       Realm (uniqueInRealmId st + 1) (uuids_drawn st) (promises st) (promiseMap st)
             (settled st) (res_calls st) (listeners st) (posted st) (walked st) (console st)))
  /\ (forall st,
      MAX_SAFE_INTEGER - 1000 < uniqueInRealmId st ->
      getId randomUUID st =
      (Done (IdStr (randomUUID (uuids_drawn st))),
       Realm (uniqueInRealmId st) (S (uuids_drawn st)) (promises st) (promiseMap st)
             (settled st) (res_calls st) (listeners st) (posted st) (walked st) (console st)))
  /\ (forall ep op st, exists p st' req,
      perform randomUUID ep op st = (Done p, st')
      /\ posted st' = (posted st ++ [wire ep req])%list
      /\ get req "id" = next_id randomUUID st)
  /\ (forall st evs, NoDup (operation_ids randomUUID call_fn construct_fn st evs)).
Proof.
  intros Hinj. split; [exact getId_counter |]. split; [exact getId_random |]. split.
  - intros ep op st.
    destruct (perform_posts ep op st)
      as (p & st' & req & i & Hop & _ & Hposted & _ & _ & Hnext & _).
    exists p, st', req. auto.
  - intros st evs. apply (operation_ids_distinct evs Hinj st).
Qed.

End Properties.

(** ** Sessions: pending requests and their settlement *)

Section SessionProperties.

Variable randomUUID : nat -> string.
Variable call_fn : nat -> list value -> call_result.
Variable construct_fn : nat -> list value -> completion.

(** An error message never touches the promise state. *)
Lemma error_message_dropped ep id e st :
  same_promises st (run (client_handler ep (error_message id e)) st).
Proof.
  destruct (client_handler_effect ep (error_message id e) st)
    as [H | (i & p & v & Hty & _)]; [exact H | discriminate].
Qed.

(** *** What [unwrapArg] does, by the shape of the data *)

Lemma unwrapArg_any_run d ep st :
  get d "type" = VStr "any" -> unwrapArg d ep st = (Done (get d "data"), st).
Proof.
  intros Hty. unfold unwrapArg. unfold_M.
  assert (Hread : read d "type" st = (Done (get d "type"), st))
    by (destruct d; try reflexivity; discriminate).
  rewrite Hread, Hty. reflexivity.
Qed.

Lemma unwrapArg_wraped_run d ep st :
  get d "type" = VStr "wraped" ->
  unwrapArg d ep st =
  (Done (VProxy (EChan ep (get d "id")) []),
   Realm (uniqueInRealmId st) (uuids_drawn st) (promises st) (promiseMap st)
         (settled st) (res_calls st)
         (listeners st ++ [ChannelListener ep (get d "id");
                           ClientHandler (EChan ep (get d "id"))])
         (posted st) (walked st) (console st)).
Proof.
  intros Hty. unfold unwrapArg. unfold_M.
  assert (Hread : read d "type" st = (Done (get d "type"), st))
    by (destruct d; try reflexivity; discriminate).
  rewrite Hread, Hty. unfold createChannel, wrap, addEventListener. unfold_M. simpl.
  now rewrite <- app_assoc.
Qed.

Lemma unwrapArg_other_run d ep st :
  d <> VUndefined -> d <> VNull ->
  get d "type" <> VStr "any" -> get d "type" <> VStr "wraped" ->
  unwrapArg d ep st = (Done VUndefined, st).
Proof.
  intros Hu Hn Ha Hw. unfold unwrapArg. unfold_M.
  assert (Hread : read d "type" st = (Done (get d "type"), st))
    by (destruct d; try reflexivity; congruence).
  rewrite Hread.
  destruct (strict_eq (get d "type") (VStr "any")) eqn:E1;
    [apply strict_eq_true in E1; contradiction |].
  destruct (strict_eq (get d "type") (VStr "wraped")) eqn:E2;
    [apply strict_eq_true in E2; contradiction |].
  reflexivity.
Qed.

Lemma unwrapArg_nullish_run d ep st :
  d = VUndefined \/ d = VNull ->
  unwrapArg d ep st = (Thrown (property_TypeError "type"), st).
Proof. intros [-> | ->]; reflexivity. Qed.

(** *** A response that carries the id of a pending request *)

Lemma response_is_valid (id : ident) (d : value) (st : realm) :
  assertValidRPCResponse (response_message (value_of_ident id) d) st = (Done tt, st).
Proof. destruct id; reflexivity. Qed.

(** When the data decodes, the resolve function stored under the id is
    called with the decoded value and the entry is deleted, on whichever
    endpoint's handler the response arrives. *)
Lemma response_calls_res E2 i p d v st st1 :
  promiseMap st !! i = Some p ->
  unwrapArg d E2 st = (Done v, st1) ->
  client_handler E2 (response_message (value_of_ident i) d) st =
  (Done tt,
   Realm (uniqueInRealmId st1) (uuids_drawn st1) (promises st1)
         (delete i (promiseMap st1))
         (settled st1 ++ (if thenable v then [] else [(p, Fulfilled v)]))
         (res_calls st1 ++ [(p, v)]) (listeners st1) (posted st1)
         (walked st1) (console st1)).
Proof.
  intros Hp Hun.
  assert (Hkey : ident_of_value (value_of_ident i) = Some i) by (destruct i; reflexivity).
  pose proof (unwrapArg_frame d E2 st) as Hf. rewrite Hun in Hf.
  destruct Hf as (_ & Hm & _). simpl in Hm.
  unfold client_handler.
  replace (truthy (response_message (value_of_ident i) d)
           && negb (truthy (get (response_message (value_of_ident i) d) "channel")))
    with true by reflexivity.
  unfold try_catch. unfold mbind at 1, M_bind at 1. rewrite response_is_valid.
  change (get (response_message (value_of_ident i) d) "data") with d.
  change (get (response_message (value_of_ident i) d) "id") with (value_of_ident i).
  unfold mbind at 1, M_bind at 1. rewrite Hun.
  unfold_M. unfold promiseMap_get, call_res, promiseMap_delete.
  unfold_M. simpl. rewrite Hkey. simpl. rewrite Hm, Hp. simpl. rewrite ?Hkey.
  rewrite <- Hm. reflexivity.
Qed.

(** When decoding the data throws, the error is logged and nothing else
    happens. *)
Lemma response_undecodable E2 i d e st st1 :
  unwrapArg d E2 st = (Thrown e, st1) ->
  client_handler E2 (response_message (value_of_ident i) d) st
  = console_error e st1.
Proof.
  intros Hun. unfold client_handler.
  replace (truthy (response_message (value_of_ident i) d)
           && negb (truthy (get (response_message (value_of_ident i) d) "channel")))
    with true by reflexivity.
  unfold try_catch. unfold mbind at 1, M_bind at 1. rewrite response_is_valid.
  change (get (response_message (value_of_ident i) d) "data") with d.
  unfold mbind at 1, M_bind at 1. rewrite Hun. reflexivity.
Qed.

(** A value [wrapArg] sends inline is not a thenable. *)
Lemma must_wrap_not_thenable (v : value) (w : bool) :
  must_wrap v w = false -> thenable v = false.
Proof.
  unfold must_wrap, thenable. intros H.
  destruct v as [| | b | n | s | xs | props | m | q | f | ep kc]; simpl in *;
    try reflexivity; try discriminate.
  induction props as [| [k x] props IH]; [reflexivity |].
  cbn [map snd existsb] in H. apply orb_false_iff in H as [Hx Hrest].
  cbn [lookup_prop]. destruct (String.eqb "then" k); [exact Hx | apply IH, Hrest].
Qed.

(** A bare response with inline data that is not a thenable fulfils the
    promise pending under its id, on whichever endpoint's handler it
    arrives, and the entry is deleted. *)
Lemma response_resolves_pending E2 i p v st :
  promiseMap st !! i = Some p ->
  thenable v = false ->
  settled (run (client_handler E2 (response_message (value_of_ident i) (any v))) st)
  = (settled st ++ [(p, Fulfilled v)])%list
  /\ promiseMap (run (client_handler E2 (response_message (value_of_ident i) (any v))) st)
     = delete i (promiseMap st).
Proof.
  intros Hp Hv. unfold run.
  rewrite (response_calls_res E2 i p (any v) v st st Hp)
    by (apply (unwrapArg_any_run (any v)); reflexivity).
  simpl. rewrite Hv. auto.
Qed.

(** C3, amended.  The pending-request table is one per realm, shared by
    every [wrap] session.  In a reachable realm where a request is pending
    under id [i], a message delivered to the handler of any endpoint [E2]
    leaves that request alone (still pending, its resolve function not
    called, not settled) unless it is a response that carries the id [i].
    A response that carries [i], whichever endpoint [E2] is: with data of
    type 'any', calls the resolve function with the inline data, which
    fulfils the promise unless that data is a thenable; with data of type
    'wraped', calls it with a proxy of the sub-channel of [E2], which the
    promise follows without being settled; with other data that is neither
    undefined nor null, fulfils the promise with undefined; in these three
    cases the entry is removed; with data undefined or null, leaves the
    request pending, because decoding throws before the table is
    consulted. *)
Theorem pending_table_shared_by_sessions (evs : list event) (i : ident) (p : nat)
      (E2 : endpoint) :
  promiseMap (after randomUUID call_fn construct_fn evs) !! i = Some p ->
  let st := after randomUUID call_fn construct_fn evs in
  (forall data,
      ident_of_value (get data "id") <> Some i \/ get data "type" <> VStr "response" ->
      promiseMap (run (client_handler E2 data) st) !! i = Some p
      /\ (p ∉ called_promises (run (client_handler E2 data) st))
      /\ (p ∉ settled_promises (run (client_handler E2 data) st)))
  /\ (forall d,
      get d "type" = VStr "any" ->
      res_calls (run (client_handler E2 (response_message (value_of_ident i) d)) st)
        = (res_calls st ++ [(p, get d "data")])%list
      /\ settled (run (client_handler E2 (response_message (value_of_ident i) d)) st)
         = (settled st ++ (if thenable (get d "data") then []
                           else [(p, Fulfilled (get d "data"))]))%list
      /\ promiseMap (run (client_handler E2 (response_message (value_of_ident i) d)) st)
           !! i = None)
  /\ (forall d,
      get d "type" = VStr "wraped" ->
      res_calls (run (client_handler E2 (response_message (value_of_ident i) d)) st)
        = (res_calls st ++ [(p, VProxy (EChan E2 (get d "id")) [])])%list
      /\ settled (run (client_handler E2 (response_message (value_of_ident i) d)) st)
         = settled st
      /\ promiseMap (run (client_handler E2 (response_message (value_of_ident i) d)) st)
           !! i = None)
  /\ (forall d,
      d <> VUndefined -> d <> VNull ->
      get d "type" <> VStr "any" -> get d "type" <> VStr "wraped" ->
      res_calls (run (client_handler E2 (response_message (value_of_ident i) d)) st)
        = (res_calls st ++ [(p, VUndefined)])%list
      /\ settled (run (client_handler E2 (response_message (value_of_ident i) d)) st)
         = (settled st ++ [(p, Fulfilled VUndefined)])%list
      /\ promiseMap (run (client_handler E2 (response_message (value_of_ident i) d)) st)
           !! i = None)
  /\ (forall d,
      d = VUndefined \/ d = VNull ->
      promiseMap (run (client_handler E2 (response_message (value_of_ident i) d)) st)
        !! i = Some p
      /\ res_calls (run (client_handler E2 (response_message (value_of_ident i) d)) st)
         = res_calls st
      /\ settled (run (client_handler E2 (response_message (value_of_ident i) d)) st)
         = settled st).
Proof.
  intros Hp st. fold st in Hp.
  pose proof (after_consistent randomUUID call_fn construct_fn evs : consistent st) as Hc.
  clearbody st.
  split; [| split; [| split; [| split]]].
  - intros data Hother.
    destruct (pending_unsettled _ Hc i p Hp) as [_ Hnot].
    pose proof (pending_uncalled _ Hc i p Hp) as Hnotc.
    destruct (client_handler_effect E2 data st)
      as [(_ & Hm & Hs & Hr) | (j & q & v & Hty & _ & Hj & Hq & _ & Hr & Hs & Hm & _)].
    + unfold settled_promises, called_promises. rewrite Hm, Hs, Hr. auto.
    + assert (Hne : j <> i) by (intros ->; destruct Hother; congruence).
      assert (Hqp : q <> p).
      { intros ->. apply Hne. eapply (pending_injective _ Hc); eassumption. }
      unfold settled_promises, called_promises.
      rewrite Hm, Hs, Hr, lookup_delete_ne by exact Hne.
      split; [exact Hp |]. split.
      * rewrite fmap_app. simpl. intros Hin.
        apply elem_of_app in Hin as [Hin | Hin]; [contradiction |].
        apply list_elem_of_singleton in Hin. congruence.
      * rewrite fmap_app. intros Hin.
        apply elem_of_app in Hin as [Hin | Hin]; [contradiction |].
        destruct (thenable v); simpl in Hin.
        -- apply elem_of_nil in Hin. contradiction.
        -- apply list_elem_of_singleton in Hin. congruence.
  - intros d Hty. unfold run.
    rewrite (response_calls_res E2 i p d _ st st Hp (unwrapArg_any_run d E2 st Hty)).
    simpl. rewrite lookup_delete_eq. auto.
  - intros d Hty. unfold run.
    rewrite (response_calls_res E2 i p d _ st _ Hp (unwrapArg_wraped_run d E2 st Hty)).
    simpl. rewrite lookup_delete_eq, app_nil_r. auto.
  - intros d Hu Hn Ha Hw. unfold run.
    rewrite (response_calls_res E2 i p d _ st st Hp
               (unwrapArg_other_run d E2 st Hu Hn Ha Hw)).
    simpl. rewrite lookup_delete_eq. auto.
  - intros d Hd. unfold run.
    rewrite (response_undecodable E2 i d _ st st (unwrapArg_nullish_run d E2 st Hd)).
    simpl. auto.
Qed.


End SessionProperties.

(** ** The scenarios, evaluated *)

(** Scenario 1: the dispatcher answers [add(2, 3)] with the inline 5. *)
Example scenario_primitive_call :
  posted (run (scenario_server scenario_root (EBase 0)
                 (call_request (VNum 1) ["add"] [any (VNum 2); any (VNum 3)]))
              initial_realm)
  = [(0%nat, response_message (VNum 1) (any (VNum 5)))].
Proof. vm_compute. reflexivity. Qed.

(** Scenario 3: a function argument is exposed on a fresh sub-channel and
    sent as [{type: 'wraped', id}]; the request takes id 1, the function
    id 2. *)
Example scenario_callback_wrap :
  let st := run (perform scenario_randomUUID (EBase 0)
                   (OpApply ["apply"] [VArr [VNum 1; VNum 2; VNum 3]; VFun 7]))
                initial_realm in
  posted st = [(0%nat, call_request (VNum 1) ["apply"]
                         [any (VArr [VNum 1; VNum 2; VNum 3]); wraped (VNum 2)])]
  /\ listeners st = [ChannelListener (EBase 0) (VNum 2);
                     ServerHandler (VFun 7) (EChan (EBase 0) (VNum 2))].
Proof. vm_compute. auto. Qed.

(** The realm of a client that wrapped transport 0 and called [boom()]:
    request 1 is pending for promise 0. *)
Lemma boom_call_pending :
  let st1 := run (wrap (EBase 0);; perform scenario_randomUUID (EBase 0) (OpApply ["boom"] []))
                 initial_realm in
  posted st1 = [(0%nat, call_request (VNum 1) ["boom"] [])]
  /\ promiseMap st1 !! IdNum 1 = Some 0%nat
  /\ settled st1 = [].
Proof. vm_compute. auto. Qed.

(** C1.  The dispatcher answers the call of a function that throws
    [Error("bad")] with [{id: 1, type: 'error', error: 'bad'}].  Delivered
    to the client handler while request 1 is pending, that message is
    rejected by the response validator: the handler only logs, the entry
    stays in the table and no promise is settled.  The same holds for every
    error message in every realm, and along every sequence of events no
    promise is ever rejected. *)
Theorem error_reply_leaves_request_pending :
  let reply := error_message (VNum 1) (VStr "bad") in
  let st1 := run (wrap (EBase 0);; perform scenario_randomUUID (EBase 0) (OpApply ["boom"] []))
                 initial_realm in
  let st2 := run (client_handler (EBase 0) reply) st1 in
  posted (run (scenario_server scenario_root (EBase 0) (call_request (VNum 1) ["boom"] []))
              initial_realm) = [(0%nat, reply)]
  /\ promiseMap st1 !! IdNum 1 = Some 0%nat
  /\ promiseMap st2 !! IdNum 1 = Some 0%nat
  /\ settled st2 = []
  /\ console st2 = [VError "Invalid RPC response: missing id or invalid type"]
  /\ (forall ep id e st, same_promises st (run (client_handler ep (error_message id e)) st))
  /\ (forall randomUUID call_fn construct_fn evs p s,
        (p, s) ∈ settled (after randomUUID call_fn construct_fn evs) ->
        exists v, s = Fulfilled v).
Proof.
  split; [vm_compute; reflexivity |]. split; [vm_compute; reflexivity |].
  split; [vm_compute; reflexivity |]. split; [vm_compute; reflexivity |].
  split; [vm_compute; reflexivity |]. split.
  - apply error_message_dropped.
  - intros randomUUID call_fn construct_fn evs.
    apply (after_consistent randomUUID call_fn construct_fn evs).
Qed.

(** C2.  The dispatcher's reply to [new Counter(10)]: the instance has the
    own property [n] and no function among its own values, so the probe in
    [wrapArg] overwrites the forcing flag and the instance is sent inline;
    no sub-channel is created and nothing is exposed. *)
Theorem construct_reply_is_inline :
  let request := construct_request (VNum 1) ["Counter"] [any (VNum 10)] in
  let st := run (scenario_server scenario_root (EBase 0) request) initial_realm in
  posted st = [(0%nat, response_message (VNum 1) (any (VObj [("n", VNum 10)])))]
  /\ listeners st = []
  /\ console st = [].
Proof. vm_compute. auto. Qed.

(** C3, as stated, fails: the request issued through the proxy of transport
    1 is resolved by a response delivered on transport 2. *)
Lemma response_on_other_endpoint_resolves :
  let E1 := EBase 1 in
  let E2 := EBase 2 in
  let st1 := run (wrap E1;; wrap E2;; perform scenario_randomUUID E1 (OpApply ["add"] [VNum 2; VNum 3]))
                 initial_realm in
  let st2 := run (client_handler E2 (response_message (VNum 1) (any (VNum 5)))) st1 in
  E1 <> E2
  /\ posted st1 = [(1%nat, call_request (VNum 1) ["add"] [any (VNum 2); any (VNum 3)])]
  /\ promiseMap st1 !! IdNum 1 = Some 0%nat
  /\ settled st1 = []
  /\ settled st2 = [(0%nat, Fulfilled (VNum 5))]
  /\ promiseMap st2 !! IdNum 1 = None.
Proof. split; [discriminate |]. vm_compute. auto. Qed.

(** C4, as stated, fails: a request with an unsafe chain and no id is
    answered with the text of the id check, which does not mention unsafe
    property names. *)
Lemma unsafe_chain_without_id_other_text :
  let data := VObj [("type", VStr "call"); ("keyChain", VArr [VStr "__proto__"]);
                    ("args", VArr [])] in
  let st := run (scenario_server scenario_root (EBase 0) data) initial_realm in
  existsb unsafe_key [VStr "__proto__"] = true
  /\ posted st = [(0%nat, error_message VUndefined (VStr "Invalid RPC call: missing id or type"))]
  /\ includes "Invalid RPC call: missing id or type" "unsafe property names" = false.
Proof. vm_compute. auto. Qed.

(** C7, as stated, fails: a message whose [channel] field is 0 is handled.
    The dispatcher validates it and posts an error reply; the client
    handler resolves the pending request 1 from it. *)
Lemma falsy_channel_not_ignored :
  let tagged := VObj [("channel", VNum 0); ("payload", VStr "x")] in
  let response := VObj [("channel", VNum 0); ("id", VNum 1); ("type", VStr "response");
                        ("data", any (VNum 5))] in
  let st1 := run (wrap (EBase 0);; perform scenario_randomUUID (EBase 0) (OpApply ["add"] []))
                 initial_realm in
  posted (run (scenario_server scenario_root (EBase 0) tagged) initial_realm)
    = [(0%nat, error_message VUndefined (VStr "Invalid RPC call: missing id or type"))]
  /\ settled st1 = []
  /\ settled (run (client_handler (EBase 0) response) st1) = [(0%nat, Fulfilled (VNum 5))].
Proof. vm_compute. auto. Qed.


(** C10, as stated, fails: the empty string is a type string that is none
    of "await", "call" and "construct", and the dispatcher answers it with
    an error. *)
Lemma empty_type_gets_error_reply :
  let data := VObj [("id", VNum 1); ("type", VStr ""); ("keyChain", VArr [])] in
  let st := run (scenario_server scenario_root (EBase 0) data) initial_realm in
  posted st = [(0%nat, error_message (VNum 1) (VStr "Invalid RPC call: missing id or type"))].
Proof. vm_compute. reflexivity. Qed.

(** ** The theorems at concrete inputs *)

Lemma scenario_randomUUID_inj j k :
  scenario_randomUUID j = scenario_randomUUID k -> j = k.
Proof.
  unfold scenario_randomUUID. simpl. intros [= H]. exact (inj pretty _ _ H).
Qed.

(** [{n: 10}] survives encoding and decoding. *)
Lemma decode_encode_inline_witness :
  let v := VObj [("n", VNum 10)] in
  wrapArg scenario_randomUUID v (EBase 0) false initial_realm = (Done (any v), initial_realm)
  /\ unwrapArg (any v) (EBase 0) initial_realm = (Done v, initial_realm)
  /\ (d ← wrapArg scenario_randomUUID v (EBase 0) false; unwrapArg d (EBase 0)) initial_realm
     = (Done v, initial_realm).
Proof.
  apply (decode_encode_inline scenario_randomUUID (VObj [("n", VNum 10)]) (EBase 0)
           initial_realm); reflexivity.
Defined.

(** A call tagged with the channel "some_channel" is skipped. *)
Lemma channel_tagged_ignored_witness :
  let data := VObj [("channel", VStr "some_channel"); ("id", VNum 1); ("type", VStr "call");
                    ("keyChain", VArr [VStr "add"]); ("args", VArr [])] in
  scenario_server scenario_root (EBase 0) data initial_realm = (Done tt, initial_realm)
  /\ client_handler (EBase 0) data initial_realm = (Done tt, initial_realm).
Proof.
  apply (channel_tagged_ignored scenario_randomUUID scenario_call scenario_construct
           scenario_root (EBase 0)
           (VObj [("channel", VStr "some_channel"); ("id", VNum 1); ("type", VStr "call");
                  ("keyChain", VArr [VStr "add"]); ("args", VArr [])])
           initial_realm).
  reflexivity.
Defined.

(** A request of type "release" gets no answer. *)
Lemma unknown_type_no_reply_witness :
  scenario_server scenario_root (EBase 0)
    (VObj [("id", VNum 1); ("type", VStr "release"); ("keyChain", VArr [VStr "add"])])
    initial_realm
  = (Done tt, initial_realm).
Proof.
  apply (unknown_type_no_reply scenario_randomUUID scenario_call scenario_construct
           scenario_root (EBase 0)
           (VObj [("id", VNum 1); ("type", VStr "release"); ("keyChain", VArr [VStr "add"])])
           "release" [VStr "add"] initial_realm);
    first [reflexivity | discriminate].
Defined.

(** Scenario 6: [{id: 9, type: "call", keyChain: ["__proto__", "constructor"],
    args: []}]. *)
Lemma unsafe_chain_rejected_witness :
  let data := call_request (VNum 9) ["__proto__"; "constructor"] [] in
  walked (run (scenario_server scenario_root (EBase 0) data) initial_realm) = []
  /\ scenario_server scenario_root (EBase 0) data initial_realm =
     (Done tt,
      Realm 0 0 0 ∅ [] [] [] [(0%nat, error_message (VNum 9) (VStr unsafe_message))] []
            [VError unsafe_message]).
Proof.
  destruct (unsafe_chain_rejected scenario_randomUUID scenario_call scenario_construct
              scenario_root (EBase 0)
              (call_request (VNum 9) ["__proto__"; "constructor"] [])
              [VStr "__proto__"; VStr "constructor"] initial_realm)
    as [Hwalk Hreply]; [reflexivity | reflexivity |].
  split; [exact Hwalk |].
  destruct Hreply as [_ Hreply]; [reflexivity | discriminate | reflexivity |].
  exact Hreply.
Defined.

(** Two operations on transport 0 with a delivery in between. *)
Lemma request_ids_distinct_witness :
  NoDup (operation_ids scenario_randomUUID scenario_call scenario_construct initial_realm
           [EvOperate (EBase 0) (OpApply ["add"] [VNum 2; VNum 3]);
            EvClientMessage (EBase 0) (response_message (VNum 1) (any (VNum 5)));
            EvOperate (EBase 0) (OpConstruct ["Counter"] [VNum 10])]).
Proof.
  destruct (request_ids_distinct scenario_randomUUID scenario_call scenario_construct
              scenario_randomUUID_inj) as (_ & _ & _ & H).
  apply H.
Defined.

(** With request 1 pending from the proxy of transport 1: the response to
    request 2 delivered on transport 2 leaves it pending; the response to
    request 1 delivered on transport 2 fulfils it when its data is the
    inline 5, resolves it with a proxy without settling it when its data
    is wrapped, and leaves it pending when its data is null. *)
Lemma pending_table_shared_by_sessions_witness :
  let evs := [EvWrap (EBase 1); EvWrap (EBase 2);
              EvOperate (EBase 1) (OpApply ["add"] [VNum 2; VNum 3])] in
  let st := after scenario_randomUUID scenario_call scenario_construct evs in
  promiseMap st !! IdNum 1 = Some 0%nat
  /\ promiseMap (run (client_handler (EBase 2) (response_message (VNum 2) (any (VNum 5)))) st)
       !! IdNum 1 = Some 0%nat
  /\ settled (run (client_handler (EBase 2) (response_message (VNum 1) (any (VNum 5)))) st)
     = (settled st ++ [(0%nat, Fulfilled (VNum 5))])%list
  /\ settled (run (client_handler (EBase 2) (response_message (VNum 1) (wraped (VNum 7)))) st)
     = settled st
  /\ promiseMap (run (client_handler (EBase 2) (response_message (VNum 1) VNull)) st)
       !! IdNum 1 = Some 0%nat.
Proof.
  assert (Hp : promiseMap (after scenario_randomUUID scenario_call scenario_construct
                             [EvWrap (EBase 1); EvWrap (EBase 2);
                              EvOperate (EBase 1) (OpApply ["add"] [VNum 2; VNum 3])])
                 !! IdNum 1 = Some 0%nat) by (vm_compute; reflexivity).
  destruct (pending_table_shared_by_sessions scenario_randomUUID scenario_call
              scenario_construct _ (IdNum 1) 0%nat (EBase 2) Hp)
    as (Hother & Hany & Hwraped & _ & Hnull).
  split; [exact Hp |]. split; [| split; [| split]].
  - apply (Hother (response_message (VNum 2) (any (VNum 5)))). left. discriminate.
  - destruct (Hany (any (VNum 5)) eq_refl) as (_ & Hs & _). exact Hs.
  - destruct (Hwraped (wraped (VNum 7)) eq_refl) as (_ & Hs & _). exact Hs.
  - destruct (Hnull VNull) as (Hm & _); [right; reflexivity | exact Hm].
Defined.

(** * Further properties of the two modules *)

(** ** The handlers never throw *)

Lemma no_throw_try_catch {A} (body : M A) (handler : value -> M A) :
  (forall e, no_throw (handler e)) -> no_throw (try_catch body handler).
Proof.
  intros Hh st e. unfold try_catch.
  destruct (body st) as [[a | e' |] st1] eqn:Hb; simpl; try discriminate.
  apply Hh.
Qed.

Lemma no_throw_console_error e : no_throw (console_error e).
Proof. intros st e'. discriminate. Qed.

Lemma no_throw_bind_console {A} (e : value) (m : M A) :
  no_throw m -> no_throw (console_error e;; m).
Proof. intros Hm st e'. unfold_M. simpl. apply Hm. Qed.

(** Whatever arrives, and whatever the exposed functions do, neither the
    dispatcher installed by [expose] nor the listener installed by [wrap]
    lets an exception escape: every failure of validation, of the chain
    walk, of decoding, of the target or of the reply itself ends in
    [console.error] (and, in the dispatcher, an error reply). *)
Theorem handlers_never_throw randomUUID call_fn construct_fn obj ep data :
  no_throw (server_handler randomUUID call_fn construct_fn obj ep data)
  /\ no_throw (client_handler ep data).
Proof.
  split.
  - unfold server_handler. destruct (truthy data && _); [| discriminate].
    apply no_throw_try_catch. intros e.
    apply no_throw_bind_console, no_throw_try_catch. intros e'.
    apply no_throw_console_error.
  - unfold client_handler. destruct (truthy data && _); [| discriminate].
    apply no_throw_try_catch. intros e. apply no_throw_console_error.
Qed.

(** ** The chain walk *)

Lemma steps_ok_nil obj : steps_ok obj [].
Proof. intros i k Hk. rewrite lookup_nil in Hk. discriminate. Qed.

Lemma steps_ok_cons obj k ks :
  steps_ok obj (k :: ks) <->
  (truthy obj = true /\ is_object obj = true /\ hasOwnProperty obj k = true)
  /\ steps_ok (get obj k) ks.
Proof.
  split.
  - intros H. split; [exact (H 0%nat k eq_refl) |].
    intros i k' Hk'. exact (H (S i) k' Hk').
  - intros [H0 Hrest] [| i] k' Hk'; simpl in *.
    + injection Hk' as <-. exact H0.
    + exact (Hrest i k' Hk').
Qed.

Lemma strings_of_fmap ks : strings_of (VStr <$> ks) = ks.
Proof.
  unfold strings_of. induction ks as [| k ks IH]; simpl; [reflexivity |].
  f_equal. exact IH.
Qed.

(** One run of the loop of [getKeyChain]: it only extends the walk log, and
    it ends with the value at the end of the chain when every step is an
    own property, and otherwise with the error of the first key that is
    not. *)
Lemma walk_cases ks :
  forall obj st, exists tr,
    snd (walk obj ks st) =
      Realm (uniqueInRealmId st) (uuids_drawn st) (promises st) (promiseMap st)
            (settled st) (res_calls st) (listeners st) (posted st) (walked st ++ tr) (console st)
    /\ ((steps_ok obj ks /\ fst (walk obj ks st) = Done (foldl get obj ks))
        \/ (~ steps_ok obj ks
            /\ exists k, k ∈ ks
                 /\ (fst (walk obj ks st) = Thrown (not_found k)
                     \/ fst (walk obj ks st) = Thrown (non_object k)))).
Proof.
  induction ks as [| k ks IH]; intros obj st.
  - exists []. simpl. rewrite app_nil_r. split; [now destruct st |].
    left. split; [apply steps_ok_nil | reflexivity].
  - simpl. unfold_M. unfold log_walk, assertPropertyExists. unfold_M. simpl.
    destruct (negb (truthy obj) || negb (is_object obj)) eqn:Hobj; simpl.
    + exists [(obj, k)]. split; [reflexivity |]. right. split.
      * intros H. apply steps_ok_cons in H as [(Ht & Ho & _) _].
        rewrite Ht, Ho in Hobj. discriminate.
      * exists k. split; [left |]. right. reflexivity.
    + destruct (hasOwnProperty obj k) eqn:Hown; simpl.
      * apply orb_false_iff in Hobj as [Ht Ho].
        apply negb_false_iff in Ht, Ho.
        set (st1 := Realm (uniqueInRealmId st) (uuids_drawn st) (promises st)
                          (promiseMap st) (settled st) (res_calls st) (listeners st) (posted st)
                          (walked st ++ [(obj, k)]) (console st)).
        destruct (IH (get obj k) st1) as (tr & Hsnd & Hfst).
        exists ((obj, k) :: tr).
        destruct (walk (get obj k) ks st1) as [o st2] eqn:Hw. simpl in *.
        split; [rewrite Hsnd; simpl; now rewrite <- app_assoc |].
        destruct Hfst as [[Hok ->] | (Hbad & k' & Hin & Hthrow)].
        -- left. split; [| reflexivity]. apply steps_ok_cons. auto.
        -- right. split.
           ++ intros H. apply steps_ok_cons in H as [_ H]. contradiction.
           ++ exists k'. split; [now right |].
              destruct Hthrow as [-> | ->]; [left | right]; reflexivity.
      * exists [(obj, k)]. split; [reflexivity |]. right. split.
        -- intros H. apply steps_ok_cons in H as [(_ & _ & Hown') _]. congruence.
        -- exists k. split; [left |]. left. reflexivity.
Qed.

Lemma getKeyChain_safe obj ks st :
  safe_chain ks = true ->
  getKeyChain obj (keyChain_value ks) st = walk obj ks st.
Proof.
  unfold safe_chain, getKeyChain, keyChain_value, assertValidKeyChain.
  intros H. apply negb_true_iff in H. rewrite H. unfold_M. simpl.
  now rewrite strings_of_fmap.
Qed.

Lemma getKeyChain_run_ok obj ks st :
  safe_chain ks = true -> steps_ok obj ks ->
  exists tr,
    getKeyChain obj (keyChain_value ks) st =
    (Done (foldl get obj ks),
     Realm (uniqueInRealmId st) (uuids_drawn st) (promises st) (promiseMap st)
           (settled st) (res_calls st) (listeners st) (posted st) (walked st ++ tr) (console st)).
Proof.
  intros Hsafe Hok. rewrite getKeyChain_safe by exact Hsafe.
  destruct (walk_cases ks obj st) as (tr & Hsnd & [[_ Hfst] | [Hbad _]]);
    [| contradiction].
  exists tr. rewrite <- Hsnd, <- Hfst. now destruct (walk obj ks st).
Qed.


(** [getKeyChain] on a chain of safe keys returns a value exactly when every
    key names an own property of the non-null object reached so far, and
    then it is the value at the end of the chain; otherwise it throws
    "Property '<k>' not found or not accessible" or "Cannot access property
    '<k>' on non-object" for a key [k] of the chain.  Either way it changes
    nothing but the walk log. *)
Theorem getKeyChain_own_properties (obj : value) (ks : list string) (st : realm) :
  safe_chain ks = true ->
  (forall v, fst (getKeyChain obj (keyChain_value ks) st) = Done v
             <-> steps_ok obj ks /\ v = foldl get obj ks)
  /\ (~ steps_ok obj ks ->
      exists k, k ∈ ks
        /\ (fst (getKeyChain obj (keyChain_value ks) st) = Thrown (not_found k)
            \/ fst (getKeyChain obj (keyChain_value ks) st) = Thrown (non_object k)))
  /\ exists tr,
      snd (getKeyChain obj (keyChain_value ks) st) =
      Realm (uniqueInRealmId st) (uuids_drawn st) (promises st) (promiseMap st)
            (settled st) (res_calls st) (listeners st) (posted st) (walked st ++ tr) (console st).
Proof.
  intros Hsafe. rewrite getKeyChain_safe by exact Hsafe.
  destruct (walk_cases ks obj st) as (tr & Hsnd & Hfst).
  split; [| split].
  - intros v. split.
    + intros Hv. destruct Hfst as [[Hok Hd] | (_ & k & _ & [Ht | Ht])];
        rewrite Hv in *; try discriminate.
      injection Hd as ->. auto.
    + intros [Hok ->]. destruct Hfst as [[_ Hd] | [Hbad _]]; [exact Hd | contradiction].
  - intros Hbad. destruct Hfst as [[Hok _] | (_ & k & Hin & Ht)]; [contradiction |].
    exists k. auto.
  - exists tr. exact Hsnd.
Qed.

(** ** The dispatcher, branch by branch *)

Section Dispatcher.

Variable randomUUID : nat -> string.
Variable call_fn : nat -> list value -> call_result.
Variable construct_fn : nat -> list value -> completion.

Lemma assertValidRPCCall_ok data t id ks st :
  bare_request data t id ks ->
  t <> "" ->
  safe_chain ks = true ->
  (t = "call" \/ t = "construct" -> isArray (get data "args") = true) ->
  assertValidRPCCall data st = (Done tt, st).
Proof.
  intros (_ & Hid & Hdef & Hty & Hkc) Hne Hsafe Hargs.
  destruct (has_type_field _ _ Hty) as [props ->].
  unfold assertValidRPCCall. cbn [truthy is_object typeof negb orb String.eqb].
  replace (is_object (VObj props)) with true by reflexivity. cbn [negb orb].
  rewrite Hid, Hty, Hkc.
  apply String.eqb_neq in Hdef, Hne. rewrite Hdef. cbn [truthy orb negb].
  rewrite Hne. cbn [negb].
  unfold safe_chain in Hsafe. apply negb_true_iff in Hsafe.
  unfold keyChain_value, assertValidKeyChain. rewrite Hsafe. unfold_M.
  remember (isArray (get (VObj props) "args")) as arr eqn:Harr.
  cbn [strict_eq fst snd].
  destruct (String.eqb_spec t "call") as [-> | Hc]; cbn [orb andb].
  - rewrite Hargs by auto. reflexivity.
  - destruct (String.eqb_spec t "construct") as [-> | Hk]; cbn [orb andb];
      [| reflexivity].
    rewrite Hargs by auto. reflexivity.
Qed.

Lemma report_error_frame ep data e : always same_promises (report_error ep data e).
Proof. unfold report_error. always_auto. Qed.

Lemma report_error_run ep data e st :
  e <> VUndefined -> e <> VNull ->
  report_error ep data e st =
  (Done tt,
   Realm (uniqueInRealmId st) (uuids_drawn st) (promises st) (promiseMap st)
         (settled st) (res_calls st) (listeners st)
         (posted st ++ [wire ep (error_message (get data "id") (get e "message"))])
         (walked st) (console st ++ [e])).
Proof.
  intros Hu Hn. unfold report_error. unfold_M. unfold console_error. unfold_M. simpl.
  assert (Hread : forall st0, read e "message" st0 = (Done (get e "message"), st0))
    by (intros st0; destruct e; try reflexivity; congruence).
  rewrite Hread, postMessage_wire. reflexivity.
Qed.

(** The dispatcher on a valid bare request is the try block of the branch
    of its type, under the catch block. *)
Lemma server_handler_await data id ks obj ep st :
  bare_request data "await" id ks -> safe_chain ks = true ->
  server_handler randomUUID call_fn construct_fn obj ep data st =
  try_catch
    (o ← getKeyChain obj (keyChain_value ks);
     w ← wrapArg randomUUID o ep false;
     postMessage ep (response_message (get data "id") w))
    (report_error ep data) st.
Proof.
  intros Hreq Hsafe.
  pose proof (assertValidRPCCall_ok data "await" id ks st Hreq) as Hvalid.
  destruct Hreq as (Hbare & Hid & Hdef & Hty & Hkc).
  destruct (has_type_field _ _ Hty) as [props ->].
  unfold server_handler. rewrite Hbare. cbn [truthy negb andb].
  unfold try_catch. unfold mbind at 1, M_bind at 1.
  rewrite Hvalid; [| discriminate | exact Hsafe | intros [[=] | [=]]].
  rewrite Hty, Hkc.
  change (strict_eq (VStr "await") (VStr "await")) with true. reflexivity.
Qed.

Lemma server_handler_call data id ks obj ep st :
  bare_request data "call" id ks -> safe_chain ks = true ->
  isArray (get data "args") = true ->
  server_handler randomUUID call_fn construct_fn obj ep data st =
  try_catch
    (fn ← getKeyChain obj (keyChain_value ks);
     assertIsFunction fn "call target";;
     args ← mapM (fun a => unwrapArg a ep) (array_elems (get data "args"));
     response ← await_call randomUUID call_fn fn args;
     w ← wrapArg randomUUID response ep false;
     postMessage ep (response_message (get data "id") w))
    (report_error ep data) st.
Proof.
  intros Hreq Hsafe Hargs.
  pose proof (assertValidRPCCall_ok data "call" id ks st Hreq) as Hvalid.
  destruct Hreq as (Hbare & Hid & Hdef & Hty & Hkc).
  destruct (has_type_field _ _ Hty) as [props ->].
  unfold server_handler. rewrite Hbare. cbn [truthy negb andb].
  unfold try_catch. unfold mbind at 1, M_bind at 1.
  rewrite Hvalid; [| discriminate | exact Hsafe | auto].
  rewrite Hty, Hkc.
  change (strict_eq (VStr "call") (VStr "await")) with false.
  change (strict_eq (VStr "call") (VStr "call")) with true. reflexivity.
Qed.


Lemma wrapArg_inline v ep w st :
  must_wrap v w = false -> wrapArg randomUUID v ep w st = (Done (any v), st).
Proof. intros H. unfold wrapArg. rewrite H. reflexivity. Qed.

(** A value that must be wrapped gets the next id; a channel listener for
    that id is subscribed on the endpoint and the value is exposed on the
    sub-channel; nothing is posted. *)
Lemma wrapArg_wraps data ep w st :
  must_wrap data w = true ->
  wrapArg randomUUID data ep w st =
  (Done (wraped (next_id randomUUID st)),
   Realm (uniqueInRealmId (snd (getId randomUUID st)))
         (uuids_drawn (snd (getId randomUUID st)))
         (promises st) (promiseMap st) (settled st) (res_calls st)
         (listeners st ++ [ChannelListener ep (next_id randomUUID st);
                           ServerHandler data (EChan ep (next_id randomUUID st))])
         (posted st) (walked st) (console st)).
Proof.
  intros Hw. unfold wrapArg. rewrite Hw. unfold next_id, getId.
  unfold createChannel, expose, addEventListener. unfold_M. simpl.
  destruct (MAX_SAFE_INTEGER - 1000 <? uniqueInRealmId st); simpl;
    now rewrite <- app_assoc.
Qed.

Lemma decode_inline_args ep args st :
  mapM (fun a => unwrapArg a ep) (any <$> args) st = (Done args, st).
Proof.
  induction args as [| a args IH]; simpl; [reflexivity |].
  unfold_M. simpl. change (list_fmap value value any args) with (any <$> args).
  rewrite IH. reflexivity.
Qed.

Lemma server_call_cases (obj : value) (ep : endpoint) (data id : value)
      (ks : list string) (f : nat) (args : list value) (st : realm) :
  bare_request data "call" id ks ->
  safe_chain ks = true ->
  get data "args" = VArr (any <$> args) ->
  steps_ok obj ks ->
  foldl get obj ks = VFun f ->
  let out := server_handler randomUUID call_fn construct_fn obj ep data st in
  same_promises st (snd out)
  /\ (forall r, call_fn f args = Returns r -> must_wrap r false = false ->
        fst out = Done tt
        /\ posted (snd out) = (posted st ++ [wire ep (response_message id (any r))])%list
        /\ listeners (snd out) = listeners st
        /\ console (snd out) = console st)
  /\ (forall r, call_fn f args = Returns r -> must_wrap r false = true ->
        fst out = Done tt
        /\ posted (snd out) =
           (posted st ++ [wire ep (response_message id (wraped (next_id randomUUID st)))])%list
        /\ listeners (snd out) =
           (listeners st ++ [ChannelListener ep (next_id randomUUID st);
                             ServerHandler r (EChan ep (next_id randomUUID st))])%list
        /\ console (snd out) = console st)
  /\ (forall e, call_fn f args = Throws e -> e <> VUndefined -> e <> VNull ->
        fst out = Done tt
        /\ posted (snd out) = (posted st ++ [wire ep (error_message id (get e "message"))])%list
        /\ listeners (snd out) = listeners st
        /\ console (snd out) = (console st ++ [e])%list)
  /\ (call_fn f args = Pending ->
        fst out = Suspended
        /\ posted (snd out) = posted st
        /\ listeners (snd out) = listeners st
        /\ console (snd out) = console st).
Proof.
  intros Hreq Hsafe Hargs Hok Hfn out.
  assert (Hid : get data "id" = id) by (destruct Hreq as (_ & H & _); exact H).
  destruct (getKeyChain_run_ok obj ks st Hsafe Hok) as (tr & Hwalk).
  set (st1 := Realm (uniqueInRealmId st) (uuids_drawn st) (promises st) (promiseMap st)
                    (settled st) (res_calls st) (listeners st) (posted st) (walked st ++ tr)
                    (console st)) in *.
  assert (Hout : out =
            try_catch
              (response ← await_call randomUUID call_fn (VFun f) args;
               w ← wrapArg randomUUID response ep false;
               postMessage ep (response_message id w))
              (report_error ep data) st1).
  { subst out. rewrite (server_handler_call data id ks obj ep st Hreq Hsafe) by (rewrite Hargs; reflexivity).
    unfold try_catch. unfold mbind at 1, M_bind at 1. rewrite Hwalk, Hfn.
    unfold mbind at 1, M_bind at 1.
    change (assertIsFunction (VFun f) "call target" st1) with (@Done unit tt, st1).
    unfold mbind at 1, M_bind at 1.
    rewrite Hargs. cbn [array_elems]. rewrite decode_inline_args, Hid. reflexivity. }
  clearbody out.
  assert (Hframe : same_promises st (snd out)).
  { rewrite Hout. eapply (same_promises_trans st st1); [repeat split |].
    assert (H : always same_promises
                  (try_catch
                     (response ← await_call randomUUID call_fn (VFun f) args;
                      w ← wrapArg randomUUID response ep false;
                      postMessage ep (response_message id w))
                     (report_error ep data))).
    { unfold await_call. destruct (call_fn f args); always_auto;
        apply report_error_frame. }
    apply H. }
  split; [exact Hframe |].
  split; [| split; [| split]].
  - intros r Hcall Hin.
    assert (Hrun : out = (Done tt,
                Realm (uniqueInRealmId st) (uuids_drawn st) (promises st) (promiseMap st)
                      (settled st) (res_calls st) (listeners st)
                      (posted st ++ [wire ep (response_message id (any r))])
                      (walked st ++ tr) (console st))).
    { rewrite Hout. unfold try_catch, await_call. unfold_M. rewrite Hcall.
      cbv beta iota. rewrite (wrapArg_inline r ep false st1 Hin), postMessage_wire.
      reflexivity. }
    rewrite Hrun. simpl. auto.
  - intros r Hcall Hw.
    assert (Hrun : out = (Done tt,
                Realm (uniqueInRealmId (snd (getId randomUUID st)))
                      (uuids_drawn (snd (getId randomUUID st)))
                      (promises st) (promiseMap st) (settled st) (res_calls st)
                      (listeners st ++ [ChannelListener ep (next_id randomUUID st);
                                        ServerHandler r (EChan ep (next_id randomUUID st))])
                      (posted st ++
                         [wire ep (response_message id (wraped (next_id randomUUID st)))])
                      (walked st ++ tr) (console st))).
    { rewrite Hout. unfold try_catch, await_call. unfold_M. rewrite Hcall.
      cbv beta iota. rewrite (wrapArg_wraps r ep false st1 Hw), postMessage_wire.
      unfold next_id, getId. simpl.
      destruct (MAX_SAFE_INTEGER - 1000 <? uniqueInRealmId st); reflexivity. }
    rewrite Hrun. simpl. auto.
  - intros e Hcall Hu Hn.
    assert (Hrun : out = report_error ep data e st1).
    { rewrite Hout. unfold try_catch, await_call. unfold_M. rewrite Hcall.
      reflexivity. }
    rewrite Hrun, (report_error_run ep data e st1 Hu Hn), Hid. simpl. auto.
  - intros Hcall.
    assert (Hrun : out = (Suspended, st1)).
    { rewrite Hout. unfold try_catch, await_call. unfold_M. rewrite Hcall.
      reflexivity. }
    rewrite Hrun. simpl. auto.
Qed.

Lemma server_await_cases (obj : value) (ep : endpoint) (data id : value)
      (ks : list string) (st : realm) :
  bare_request data "await" id ks ->
  safe_chain ks = true ->
  steps_ok obj ks ->
  let o := foldl get obj ks in
  let out := server_handler randomUUID call_fn construct_fn obj ep data st in
  fst out = Done tt
  /\ same_promises st (snd out)
  /\ console (snd out) = console st
  /\ (must_wrap o false = false ->
        posted (snd out) = (posted st ++ [wire ep (response_message id (any o))])%list
        /\ listeners (snd out) = listeners st)
  /\ (must_wrap o false = true ->
        posted (snd out) =
          (posted st ++ [wire ep (response_message id (wraped (next_id randomUUID st)))])%list
        /\ listeners (snd out) =
           (listeners st ++ [ChannelListener ep (next_id randomUUID st);
                             ServerHandler o (EChan ep (next_id randomUUID st))])%list).
Proof.
  intros Hreq Hsafe Hok o out.
  assert (Hid : get data "id" = id) by (destruct Hreq as (_ & H & _); exact H).
  destruct (getKeyChain_run_ok obj ks st Hsafe Hok) as (tr & Hwalk).
  set (st1 := Realm (uniqueInRealmId st) (uuids_drawn st) (promises st) (promiseMap st)
                    (settled st) (res_calls st) (listeners st) (posted st) (walked st ++ tr)
                    (console st)) in *.
  assert (Hout : out =
            (w ← wrapArg randomUUID o ep false;
             postMessage ep (response_message id w)) st1).
  { subst out. rewrite (server_handler_await data id ks obj ep st Hreq Hsafe).
    unfold try_catch. unfold mbind at 1, M_bind at 1. rewrite Hwalk. fold o.
    rewrite Hid. unfold mbind, M_bind.
    destruct (wrapArg_quiet randomUUID o ep false st1) as (d & st2 & Hw & _).
    rewrite Hw, postMessage_wire. reflexivity. }
  clearbody out. subst out. unfold mbind, M_bind.
  destruct (must_wrap o false) eqn:Hm.
  - rewrite (wrapArg_wraps o ep false st1 Hm), postMessage_wire. simpl.
    split; [reflexivity |]. split; [repeat split |]. split; [reflexivity |].
    split; [discriminate |]. intros _.
    unfold next_id, getId. simpl.
    destruct (MAX_SAFE_INTEGER - 1000 <? uniqueInRealmId st); auto.
  - rewrite (wrapArg_inline o ep false st1 Hm), postMessage_wire. simpl.
    split; [reflexivity |]. split; [repeat split |]. split; [reflexivity |].
    split; [auto | discriminate].
Qed.




(** The await branch.  For a bare await request with a safe chain whose
    every step is an own property, the dispatcher posts exactly one
    message: the response carrying the encoding of the value at the end of
    the chain, inline when it needs no wrapping and otherwise
    [{type: 'wraped', id}] with the next id after exposing the value on
    that sub-channel.  The pending table and the settlement log are not
    touched. *)
Theorem dispatcher_await_reply (obj : value) (ep : endpoint) (data id : value)
      (ks : list string) (st : realm) :
  bare_request data "await" id ks ->
  safe_chain ks = true ->
  steps_ok obj ks ->
  let o := foldl get obj ks in
  let out := server_handler randomUUID call_fn construct_fn obj ep data st in
  fst out = Done tt
  /\ same_promises st (snd out)
  /\ console (snd out) = console st
  /\ (must_wrap o false = false ->
        posted (snd out) = (posted st ++ [wire ep (response_message id (any o))])%list
        /\ listeners (snd out) = listeners st)
  /\ (must_wrap o false = true ->
        posted (snd out) =
          (posted st ++ [wire ep (response_message id (wraped (next_id randomUUID st)))])%list
        /\ listeners (snd out) =
           (listeners st ++ [ChannelListener ep (next_id randomUUID st);
                             ServerHandler o (EChan ep (next_id randomUUID st))])%list).
Proof. apply server_await_cases. Qed.


End Dispatcher.

(** ** The codec *)

Section Codec.

Variable randomUUID : nat -> string.

(** The flag [wrapArg] ends up with: true for a function; for an object
    that is neither null nor an array, whether one of its own values is a
    function, whatever the flag passed in; the flag passed in otherwise. *)
Lemma must_wrap_cases data w :
  must_wrap data w =
  if is_function data then true
  else if truthy data && is_object data && negb (isArray data)
  then existsb is_function (Object_values data)
  else w.
Proof.
  unfold must_wrap, markedObj_has.
  destruct (is_function data); [reflexivity |].
  destruct data; simpl; rewrite ?andb_false_r, ?andb_true_r; reflexivity.
Qed.

(** What [wrapArg] wraps.  A function, a proxy, and an object with a
    function among its own enumerable values are always sent as
    [{type: 'wraped', id}] with the next id: a channel listener for that id
    is subscribed on the endpoint, the value is exposed on the sub-channel,
    and nothing is posted.  Without the flag, everything else is sent
    inline and the realm is untouched: primitives, null, objects without
    function values, and every array, also an array of functions. *)
Theorem wrapArg_wraps_functions_only (data : value) (ep : endpoint) (st : realm) :
  (is_function data = true
   \/ (exists props, data = VObj props /\ existsb is_function (map snd props) = true) ->
   forall w,
     wrapArg randomUUID data ep w st =
     (Done (wraped (next_id randomUUID st)),
      Realm (uniqueInRealmId (snd (getId randomUUID st)))
            (uuids_drawn (snd (getId randomUUID st)))
            (promises st) (promiseMap st) (settled st) (res_calls st)
            (listeners st ++ [ChannelListener ep (next_id randomUUID st);
                              ServerHandler data (EChan ep (next_id randomUUID st))])
            (posted st) (walked st) (console st)))
  /\ (is_function data = false ->
      isArray data = true \/ is_object data = false \/ data = VNull
      \/ existsb is_function (Object_values data) = false ->
      wrapArg randomUUID data ep false st = (Done (any data), st)).
Proof.
  split.
  - intros H w. apply wrapArg_wraps. rewrite must_wrap_cases.
    destruct H as [-> | (props & -> & Hv)]; [reflexivity |]. simpl. exact Hv.
  - intros Hf H. apply wrapArg_inline. rewrite must_wrap_cases, Hf.
    destruct H as [Ha | [Ho | [-> | Hv]]].
    + rewrite Ha. now rewrite andb_false_r.
    + rewrite Ho. now rewrite andb_false_r.
    + reflexivity.
    + rewrite Hv. now destruct (_ && _).
Qed.

Lemma wrapArgs_inline args ep st :
  Forall (fun a => must_wrap a false = false) args ->
  wrapArgs randomUUID args ep st = (Done (any <$> args), st).
Proof.
  unfold wrapArgs. induction 1 as [| a args Ha _ IH]; simpl; [reflexivity |].
  unfold_M. rewrite (wrapArg_inline randomUUID a ep false st Ha).
  change (list_fmap value value any args) with (any <$> args).
  rewrite IH. reflexivity.
Qed.

(** [wrapArgs] encodes position by position: the result has one encoded
    value per argument, in order, [{type: 'any', data: a}] for an argument
    that needs no wrapping and [{type: 'wraped', id}] for one that does;
    nothing is posted and the promise state is untouched. *)
Theorem wrapArgs_positional (args : list value) (ep : endpoint) (st : realm) :
  exists ds st',
    wrapArgs randomUUID args ep st = (Done ds, st')
    /\ Forall2 (fun a d =>
                  (must_wrap a false = false /\ d = any a)
                  \/ (must_wrap a false = true /\ exists i, d = wraped (value_of_ident i)))
               args ds
    /\ posted st' = posted st
    /\ same_promises st st'.
Proof.
  unfold wrapArgs. revert st. induction args as [| a args IH]; intros st; simpl.
  - exists [], st. split; [reflexivity |]. split; [constructor |].
    split; [reflexivity | repeat split].
  - assert (Ha : exists d st1,
               wrapArg randomUUID a ep false st = (Done d, st1)
               /\ ((must_wrap a false = false /\ d = any a)
                   \/ (must_wrap a false = true /\ exists i, d = wraped (value_of_ident i)))
               /\ posted st1 = posted st /\ same_promises st st1).
    { destruct (must_wrap a false) eqn:Hm.
      - rewrite (wrapArg_wraps randomUUID a ep false st Hm). do 2 eexists.
        split; [reflexivity |]. split; [| split; [reflexivity | repeat split]].
        right. split; [reflexivity |]. unfold next_id.
        destruct (getId_issued randomUUID st) as (i & st' & -> & _). exists i. reflexivity.
      - rewrite (wrapArg_inline randomUUID a ep false st Hm). do 2 eexists.
        split; [reflexivity |]. split; [auto |]. split; [reflexivity | repeat split]. }
    destruct Ha as (d & st1 & Hrun & Hd & Hp1 & Hs1).
    destruct (IH st1) as (ds & st2 & Hrest & Hds & Hp2 & Hs2).
    exists (d :: ds), st2. unfold_M. rewrite Hrun, Hrest.
    split; [reflexivity |]. split; [constructor; assumption |].
    split; [congruence | eapply same_promises_trans; eassumption].
Qed.

(** Decoding.  [{type: 'any', data}] decodes to [data] and leaves the realm
    untouched.  [{type: 'wraped', id}] decodes to the root proxy of the
    sub-channel [id] of the endpoint, after subscribing a channel listener
    for [id] on the endpoint and a client handler on the sub-channel.  A
    non-null value with any other [type] decodes to [undefined] without an
    error; [null] and [undefined] make the decoder throw. *)
Theorem unwrapArg_cases (ep : endpoint) (st : realm) :
  (forall v, unwrapArg (any v) ep st = (Done v, st))
  /\ (forall id,
        unwrapArg (wraped id) ep st =
        (Done (VProxy (EChan ep id) []),
         Realm (uniqueInRealmId st) (uuids_drawn st) (promises st) (promiseMap st)
               (settled st) (res_calls st)
               (listeners st ++ [ChannelListener ep id; ClientHandler (EChan ep id)])
               (posted st) (walked st) (console st)))
  /\ (forall d,
        d <> VUndefined -> d <> VNull ->
        get d "type" <> VStr "any" -> get d "type" <> VStr "wraped" ->
        unwrapArg d ep st = (Done VUndefined, st))
  /\ (exists e, unwrapArg VUndefined ep st = (Thrown e, st))
  /\ (exists e, unwrapArg VNull ep st = (Thrown e, st)).
Proof.
  split; [reflexivity |]. split.
  - intros id. unfold unwrapArg, createChannel, wrap, addEventListener. unfold_M. simpl.
    now rewrite <- app_assoc.
  - split; [| split; eexists; reflexivity].
    intros d Hu Hn Ha Hw. unfold unwrapArg. unfold_M.
    assert (Hread : read d "type" st = (Done (get d "type"), st))
      by (destruct d; try reflexivity; congruence).
    rewrite Hread.
    destruct (strict_eq (get d "type") (VStr "any")) eqn:E1;
      [apply strict_eq_true in E1; contradiction |].
    destruct (strict_eq (get d "type") (VStr "wraped")) eqn:E2;
      [apply strict_eq_true in E2; contradiction |].
    reflexivity.
Qed.

End Codec.

(** ** The proxy traps and the round trips *)

Section RoundTrips.

Variable randomUUID : nat -> string.
Variable serverUUID : nat -> string.
Variable call_fn : nat -> list value -> call_result.
Variable construct_fn : nat -> list value -> completion.

Lemma getId_next st :
  exists i,
    getId randomUUID st =
      (Done i,
       Realm (uniqueInRealmId (snd (getId randomUUID st)))
             (uuids_drawn (snd (getId randomUUID st)))
             (promises st) (promiseMap st) (settled st) (res_calls st) (listeners st) (posted st)
             (walked st) (console st))
    /\ next_id randomUUID st = value_of_ident i.
Proof.
  unfold next_id, getId.
  destruct (MAX_SAFE_INTEGER - 1000 <? uniqueInRealmId st); eexists; split; reflexivity.
Qed.

Lemma last_is_then_snoc kc : last_is_then (kc ++ ["then"]) = true.
Proof. unfold last_is_then. now rewrite last_snoc. Qed.

(** The run of the [apply] trap on a chain that ends in "then". *)
Lemma proxy_then_run ep kc args st :
  exists i,
    next_id randomUUID st = value_of_ident i
    /\ proxy_apply randomUUID ep (kc ++ ["then"]) args st =
       (Done (VPromise (S (promises st))),
        Realm (uniqueInRealmId (snd (getId randomUUID st)))
              (uuids_drawn (snd (getId randomUUID st)))
              (S (S (promises st))) (<[i := promises st]> (promiseMap st))
              (settled st) (res_calls st) (listeners st)
              (posted st ++ [wire ep (await_request (value_of_ident i) kc)])
              (walked st) (console st)).
Proof.
  destruct (getId_next st) as (i & Hid & Hnext). exists i. split; [exact Hnext |].
  unfold proxy_apply. rewrite last_is_then_snoc, removelast_last.
  unfold mbind at 1, M_bind at 1. rewrite Hid.
  unfold createPromise, new_promise, promiseMap_set. unfold_M. simpl.
  rewrite postMessage_wire. reflexivity.
Qed.

(** The run of the [apply] trap on any other chain, with arguments that
    need no wrapping. *)
Lemma proxy_call_run ep ks args st :
  last_is_then ks = false ->
  Forall (fun a => must_wrap a false = false) args ->
  exists i,
    next_id randomUUID st = value_of_ident i
    /\ proxy_apply randomUUID ep ks args st =
       (Done (VPromise (promises st)),
        Realm (uniqueInRealmId (snd (getId randomUUID st)))
              (uuids_drawn (snd (getId randomUUID st)))
              (S (promises st)) (<[i := promises st]> (promiseMap st))
              (settled st) (res_calls st) (listeners st)
              (posted st ++ [wire ep (call_request (value_of_ident i) ks (any <$> args))])
              (walked st) (console st)).
Proof.
  intros Hthen Hargs.
  destruct (getId_next st) as (i & Hid & Hnext). exists i. split; [exact Hnext |].
  unfold proxy_apply. rewrite Hthen.
  unfold mbind at 1, M_bind at 1. rewrite Hid.
  unfold createPromise, new_promise, promiseMap_set.
  unfold mbind at 1, M_bind at 1. unfold mbind at 1, M_bind at 1. cbv beta iota.
  unfold mbind at 1, M_bind at 1. unfold modify at 1. cbv beta iota.
  unfold mret at 1, M_ret at 1. unfold mbind at 1, M_bind at 1.
  rewrite (wrapArgs_inline randomUUID args ep _ Hargs).
  unfold mbind at 1, M_bind at 1. rewrite postMessage_wire. reflexivity.
Qed.

(** Awaiting a proxy.  The [apply] trap on a chain that ends in "then" posts
    one await request for the chain without its last key, under the next
    id, and stores a new promise under that id; the arguments (the
    callbacks of the awaiting code) are never encoded, so nothing is
    exposed; the promise returned is derived from the stored one.  A
    property named "then" is therefore never called remotely. *)
Theorem then_sends_await (ep : endpoint) (kc : list string) (args : list value)
      (st : realm) :
  exists i,
    next_id randomUUID st = value_of_ident i
    /\ fst (proxy_apply randomUUID ep (kc ++ ["then"]) args st)
       = Done (VPromise (S (promises st)))
    /\ posted (run (proxy_apply randomUUID ep (kc ++ ["then"]) args) st)
       = (posted st ++ [wire ep (await_request (value_of_ident i) kc)])%list
    /\ promiseMap (run (proxy_apply randomUUID ep (kc ++ ["then"]) args) st)
       = <[i := promises st]> (promiseMap st)
    /\ listeners (run (proxy_apply randomUUID ep (kc ++ ["then"]) args) st) = listeners st
    /\ settled (run (proxy_apply randomUUID ep (kc ++ ["then"]) args) st) = settled st.
Proof.
  destruct (proxy_then_run ep kc args st) as (i & Hnext & Hrun).
  exists i. unfold run. rewrite Hrun. simpl. repeat split; try reflexivity. exact Hnext.
Qed.

Lemma call_request_bare id ks encs i :
  id = value_of_ident i -> bare_request (call_request id ks encs) "call" id ks.
Proof. intros ->. repeat split. destruct i; discriminate. Qed.

Lemma await_request_bare id ks i :
  id = value_of_ident i -> bare_request (await_request id ks) "await" id ks.
Proof. intros ->. repeat split. destruct i; discriminate. Qed.

Lemma strict_eq_ident i : strict_eq (value_of_ident i) (value_of_ident i) = true.
Proof. destruct i; simpl; [apply Z.eqb_refl | apply String.eqb_refl]. Qed.

Lemma channelListener_own i x :
  channelListener (value_of_ident i) (channel_message (value_of_ident i) x)
  = Some (MessageEvent_data x).
Proof.
  unfold channelListener, channel_message.
  change (get (VObj [("channel", value_of_ident i); ("payload", x)]) "channel")
    with (value_of_ident i).
  rewrite strict_eq_ident. reflexivity.
Qed.

(** A remote call, end to end.  The client calls the proxy of the chain
    [ks] (not ending in "then") with arguments that need no wrapping; the
    exposed root has the host function [f] at the end of [ks], through own
    properties, and [f] returns [r], which needs no wrapping.  Then the
    client posts one call request and stores a new promise under its id;
    the dispatcher, given that request, posts one response with the same
    id; and the client handler, given that response, resolves exactly the
    promise the call returned, with [r], and removes the pending entry. *)
Theorem rpc_call_round_trip (epC epS : endpoint) (root : value) (ks : list string)
      (f : nat) (args : list value) (r : value) (stC stS : realm) :
  last_is_then ks = false ->
  safe_chain ks = true ->
  steps_ok root ks ->
  foldl get root ks = VFun f ->
  Forall (fun a => must_wrap a false = false) args ->
  call_fn f args = Returns r ->
  must_wrap r false = false ->
  exists i,
    let req := call_request (value_of_ident i) ks (any <$> args) in
    let reply := response_message (value_of_ident i) (any r) in
    let stC1 := run (proxy_apply randomUUID epC ks args) stC in
    fst (proxy_apply randomUUID epC ks args stC) = Done (VPromise (promises stC))
    /\ posted stC1 = (posted stC ++ [wire epC req])%list
    /\ promiseMap stC1 !! i = Some (promises stC)
    /\ posted (run (server_handler serverUUID call_fn construct_fn root epS req) stS)
       = (posted stS ++ [wire epS reply])%list
    /\ settled (run (client_handler epC reply) stC1)
       = (settled stC ++ [(promises stC, Fulfilled r)])%list
    /\ promiseMap (run (client_handler epC reply) stC1) !! i = None.
Proof.
  intros Hthen Hsafe Hok Hfn Hargs Hcall Hr.
  destruct (proxy_call_run epC ks args stC Hthen Hargs) as (i & Hnext & Hrun).
  exists i. intros req reply stC1.
  assert (Hpending : promiseMap stC1 !! i = Some (promises stC)).
  { subst stC1. unfold run. rewrite Hrun. simpl. apply lookup_insert_eq. }
  destruct (server_call_cases serverUUID call_fn construct_fn root epS req
              (value_of_ident i) ks f args stS
              (call_request_bare _ ks _ i eq_refl) Hsafe eq_refl Hok Hfn)
    as (_ & Hreturns & _).
  destruct (Hreturns r Hcall Hr) as (_ & Hposted & _).
  destruct (response_resolves_pending epC i (promises stC) r stC1 Hpending
              (must_wrap_not_thenable _ _ Hr)) as [Hs Hm].
  split; [rewrite Hrun; reflexivity |].
  split; [subst stC1; unfold run; rewrite Hrun; reflexivity |].
  split; [exact Hpending |]. split; [exact Hposted |].
  split.
  - fold reply in Hs. rewrite Hs. subst stC1. unfold run. rewrite Hrun. reflexivity.
  - fold reply in Hm. rewrite Hm. apply lookup_delete_eq.
Qed.

(** Awaiting a remote value, end to end.  The client awaits the proxy of
    the chain [ks] (the [apply] trap runs on [ks] followed by "then"); the
    exposed root has, through own properties, the value [o] at the end of
    [ks], and [o] needs no wrapping.  Then the client posts one await
    request for [ks]; the dispatcher, given that request, posts one
    response with the same id; and the client handler, given that
    response, resolves the stored promise with [o] and removes the pending
    entry. *)
Theorem rpc_await_round_trip (epC epS : endpoint) (root : value) (ks : list string)
      (callbacks : list value) (stC stS : realm) :
  safe_chain ks = true ->
  steps_ok root ks ->
  must_wrap (foldl get root ks) false = false ->
  exists i,
    let req := await_request (value_of_ident i) ks in
    let reply := response_message (value_of_ident i) (any (foldl get root ks)) in
    let stC1 := run (proxy_apply randomUUID epC (ks ++ ["then"]) callbacks) stC in
    posted stC1 = (posted stC ++ [wire epC req])%list
    /\ promiseMap stC1 !! i = Some (promises stC)
    /\ posted (run (server_handler serverUUID call_fn construct_fn root epS req) stS)
       = (posted stS ++ [wire epS reply])%list
    /\ settled (run (client_handler epC reply) stC1)
       = (settled stC ++ [(promises stC, Fulfilled (foldl get root ks))])%list
    /\ promiseMap (run (client_handler epC reply) stC1) !! i = None.
Proof.
  intros Hsafe Hok Ho.
  destruct (proxy_then_run epC ks callbacks stC) as (i & Hnext & Hrun).
  exists i. intros req reply stC1.
  assert (Hpending : promiseMap stC1 !! i = Some (promises stC)).
  { subst stC1. unfold run. rewrite Hrun. simpl. apply lookup_insert_eq. }
  destruct (server_await_cases serverUUID call_fn construct_fn root epS req
              (value_of_ident i) ks stS (await_request_bare _ ks i eq_refl) Hsafe Hok)
    as (_ & _ & _ & Hinline & _).
  destruct (Hinline Ho) as (Hposted & _).
  destruct (response_resolves_pending epC i (promises stC) (foldl get root ks) stC1 Hpending
              (must_wrap_not_thenable _ _ Ho))
    as [Hs Hm].
  split; [subst stC1; unfold run; rewrite Hrun; reflexivity |].
  split; [exact Hpending |]. split; [exact Hposted |].
  split.
  - fold reply in Hs. rewrite Hs. subst stC1. unfold run. rewrite Hrun. reflexivity.
  - fold reply in Hm. rewrite Hm. apply lookup_delete_eq.
Qed.

(** A callback, end to end.  Realm A encodes the host function [f] for the
    endpoint [epA]: it is exposed on the sub-channel of the next id.  Realm
    B decodes the encoded value on its endpoint [epB] and calls the proxy
    it gets, with arguments that need no wrapping.  The call request leaves
    B wrapped for that sub-channel; the channel listener of A unwraps it
    for the dispatcher of [f], whose response leaves A wrapped for the same
    sub-channel; the channel listener of B unwraps it for the client
    handler of the sub-channel, which resolves the promise of the call with
    the result of [f]. *)
Theorem callback_round_trip (epA epB : endpoint) (f : nat) (args : list value)
      (r : value) (stA stB : realm) :
  Forall (fun a => must_wrap a false = false) args ->
  call_fn f args = Returns r ->
  must_wrap r false = false ->
  exists c j,
    let tag := value_of_ident c in
    let stA1 := run (wrapArg serverUUID (VFun f) epA false) stA in
    let stB1 := run (unwrapArg (wraped tag) epB) stB in
    let stB2 := run (proxy_apply randomUUID (EChan epB tag) [] args) stB1 in
    let req := call_request (value_of_ident j) [] (any <$> args) in
    let reply := response_message (value_of_ident j) (any r) in
    fst (wrapArg serverUUID (VFun f) epA false stA) = Done (wraped tag)
    /\ listeners stA1
       = (listeners stA ++ [ChannelListener epA tag; ServerHandler (VFun f) (EChan epA tag)])%list
    /\ fst (unwrapArg (wraped tag) epB stB) = Done (VProxy (EChan epB tag) [])
    /\ listeners stB1
       = (listeners stB ++ [ChannelListener epB tag; ClientHandler (EChan epB tag)])%list
    /\ fst (proxy_apply randomUUID (EChan epB tag) [] args stB1) = Done (VPromise (promises stB))
    /\ posted stB2 = (posted stB ++ [wire epB (channel_message tag req)])%list
    /\ channelListener tag (channel_message tag req) = Some req
    /\ posted (run (server_handler serverUUID call_fn construct_fn (VFun f) (EChan epA tag) req)
                   stA1)
       = (posted stA ++ [wire epA (channel_message tag reply)])%list
    /\ channelListener tag (channel_message tag reply) = Some reply
    /\ settled (run (client_handler (EChan epB tag) reply) stB2)
       = (settled stB ++ [(promises stB, Fulfilled r)])%list.
Proof.
  intros Hargs Hcall Hr.
  destruct (getId_issued serverUUID stA) as (c & stA' & HgetA & _).
  assert (Hnext : next_id serverUUID stA = value_of_ident c)
    by (unfold next_id; now rewrite HgetA).
  exists c.
  pose proof (wrapArg_wraps serverUUID (VFun f) epA false stA eq_refl) as HwrapA.
  rewrite Hnext in HwrapA.
  set (tag := value_of_ident c) in *.
  set (stB1 := Realm (uniqueInRealmId stB) (uuids_drawn stB) (promises stB) (promiseMap stB)
                     (settled stB) (res_calls stB)
                     (listeners stB ++ [ChannelListener epB tag; ClientHandler (EChan epB tag)])
                     (posted stB) (walked stB) (console stB)).
  assert (HunB : unwrapArg (wraped tag) epB stB = (Done (VProxy (EChan epB tag) []), stB1)).
  { unfold unwrapArg, createChannel, wrap, addEventListener. unfold_M. simpl.
    unfold stB1. now rewrite <- app_assoc. }
  destruct (proxy_call_run (EChan epB tag) [] args stB1 eq_refl Hargs)
    as (j & _ & HcallB).
  exists j. cbv zeta. unfold run. rewrite HwrapA, HunB. cbn [fst snd].
  rewrite HcallB. cbn [fst snd].
  set (req := call_request (value_of_ident j) [] (any <$> args)).
  set (reply := response_message (value_of_ident j) (any r)).
  match goal with
  | |- context [server_handler _ _ _ _ _ _ ?s] => set (stA1 := s)
  end.
  match goal with
  | |- context [client_handler _ _ ?s] => set (stB2 := s)
  end.
  destruct (server_call_cases serverUUID call_fn construct_fn (VFun f) (EChan epA tag) req
              (value_of_ident j) [] f args stA1
              (call_request_bare _ [] _ j eq_refl) eq_refl eq_refl (steps_ok_nil _) eq_refl)
    as (_ & Hreturns & _).
  destruct (Hreturns r Hcall Hr) as (_ & Hposted & _).
  assert (Hpending : promiseMap stB2 !! j = Some (promises stB))
    by (unfold stB2; simpl; apply lookup_insert_eq).
  destruct (response_resolves_pending (EChan epB tag) j (promises stB) r stB2 Hpending
              (must_wrap_not_thenable _ _ Hr))
    as [Hs _].
  split; [reflexivity |]. split; [reflexivity |]. split; [reflexivity |].
  split; [reflexivity |]. split; [reflexivity |]. split; [reflexivity |].
  split; [apply (channelListener_own c (call_request (value_of_ident j) [] (any <$> args))) |].
  split; [exact Hposted |].
  split; [apply (channelListener_own c (response_message (value_of_ident j) (any r))) |].
  exact Hs.
Qed.

End RoundTrips.

(** ** Invariants of the allocator and of the pending table *)

Ltac always_with refl trans :=
  repeat first [ exact refl | exact trans
               | progress intros
               | solve [auto with always]
               | always_step
               | match goal with
                 | |- always _ (if ?b then _ else _) => destruct b
                 | |- always _ (match ?x with _ => _ end) => destruct x
                 end ].

Lemma keeps_in_range_refl st : keeps_in_range st st.
Proof. intros H; exact H. Qed.

Lemma keeps_in_range_trans st1 st2 st3 :
  keeps_in_range st1 st2 -> keeps_in_range st2 st3 -> keeps_in_range st1 st3.
Proof. unfold keeps_in_range. auto. Qed.

Lemma addEventListener_in_range r : always keeps_in_range (addEventListener r).
Proof. intros st H; exact H. Qed.

Lemma console_error_in_range e : always keeps_in_range (console_error e).
Proof. intros st H; exact H. Qed.

Lemma log_walk_in_range obj p : always keeps_in_range (log_walk obj p).
Proof. intros st H; exact H. Qed.

Lemma postMessage_in_range ep data : always keeps_in_range (postMessage ep data).
Proof. intros st H. rewrite postMessage_wire. exact H. Qed.

Lemma getId_in_range randomUUID : always keeps_in_range (getId randomUUID).
Proof.
  intros st H. unfold getId, counter_in_range in *.
  destruct (Z.ltb_spec (MAX_SAFE_INTEGER - 1000) (uniqueInRealmId st)); simpl; lia.
Qed.

Lemma new_promise_in_range : always keeps_in_range new_promise.
Proof. intros st H; exact H. Qed.

Lemma promiseMap_set_in_range id p : always keeps_in_range (promiseMap_set id p).
Proof. intros st H; exact H. Qed.

Lemma promiseMap_get_in_range id : always keeps_in_range (promiseMap_get id).
Proof. intros st H; exact H. Qed.

Lemma promiseMap_delete_in_range id : always keeps_in_range (promiseMap_delete id).
Proof. intros st H; exact H. Qed.

Lemma call_res_in_range p v : always keeps_in_range (call_res p v).
Proof. intros st H; exact H. Qed.

#[export] Hint Resolve addEventListener_in_range console_error_in_range log_walk_in_range
  postMessage_in_range getId_in_range new_promise_in_range promiseMap_set_in_range
  promiseMap_get_in_range promiseMap_delete_in_range call_res_in_range : always.

Lemma walk_in_range keyChain : forall obj, always keeps_in_range (walk obj keyChain).
Proof.
  induction keyChain as [| p rest IH]; intros obj; simpl; unfold_bridge;
    always_with keeps_in_range_refl keeps_in_range_trans.
Qed.

#[export] Hint Resolve walk_in_range : always.

Lemma step_in_range randomUUID call_fn construct_fn st ev :
  counter_in_range st -> counter_in_range (step randomUUID call_fn construct_fn st ev).
Proof.
  revert st. destruct ev as [ep | obj ep | ep [kc args | kc args] | ep data | obj ep data];
    simpl; unfold run.
  - change (always keeps_in_range (wrap ep)). unfold_bridge.
    always_with keeps_in_range_refl keeps_in_range_trans.
  - change (always keeps_in_range (expose obj ep)). unfold_bridge.
    always_with keeps_in_range_refl keeps_in_range_trans.
  - change (always keeps_in_range (proxy_apply randomUUID ep kc args)). unfold_bridge.
    always_with keeps_in_range_refl keeps_in_range_trans.
  - change (always keeps_in_range (proxy_construct randomUUID ep kc args)). unfold_bridge.
    always_with keeps_in_range_refl keeps_in_range_trans.
  - change (always keeps_in_range (client_handler ep data)). unfold_bridge.
    always_with keeps_in_range_refl keeps_in_range_trans.
  - change (always keeps_in_range
              (server_handler randomUUID call_fn construct_fn obj ep data)).
    unfold_bridge. always_with keeps_in_range_refl keeps_in_range_trans.
Qed.

Lemma after_in_range randomUUID call_fn construct_fn evs :
  counter_in_range (after randomUUID call_fn construct_fn evs).
Proof.
  unfold after. induction evs as [| ev evs IH] using rev_ind; simpl.
  - unfold counter_in_range, MAX_SAFE_INTEGER. simpl. lia.
  - rewrite foldl_app. simpl. apply step_in_range, IH.
Qed.

Lemma foldl_step_advances randomUUID call_fn construct_fn (more : list event) :
  forall st, advances st (foldl (step randomUUID call_fn construct_fn) st more).
Proof.
  induction more as [| ev more IH]; intros st; simpl.
  - apply advances_refl.
  - eapply advances_trans; [apply step_advances | apply IH].
Qed.

(** Along every sequence of events the counter stays between 0 and
    [MAX_SAFE_INTEGER - 999]: it never leaves the range in which adding one
    is exact.  So the next id is either a number between 1 and
    [MAX_SAFE_INTEGER - 999] or a draw of [crypto.randomUUID].  And the
    counter is never decremented or reset: whatever happens next, it is at
    least what it was, and so is the number of draws. *)
Theorem counter_stays_safe randomUUID call_fn construct_fn (evs : list event) :
  counter_in_range (after randomUUID call_fn construct_fn evs)
  /\ ((exists n, next_id randomUUID (after randomUUID call_fn construct_fn evs) = VNum n
                /\ 1 <= n <= MAX_SAFE_INTEGER - 999)
      \/ (exists k, next_id randomUUID (after randomUUID call_fn construct_fn evs)
                   = VStr (randomUUID k)))
  /\ (forall more,
        uniqueInRealmId (after randomUUID call_fn construct_fn evs)
        <= uniqueInRealmId (after randomUUID call_fn construct_fn (evs ++ more))
        /\ (uuids_drawn (after randomUUID call_fn construct_fn evs)
            <= uuids_drawn (after randomUUID call_fn construct_fn (evs ++ more)))%nat).
Proof.
  pose proof (after_in_range randomUUID call_fn construct_fn evs) as H.
  split; [exact H |]. split.
  - unfold next_id, getId, counter_in_range in *.
    destruct (Z.ltb_spec (MAX_SAFE_INTEGER - 1000)
                (uniqueInRealmId (after randomUUID call_fn construct_fn evs))); simpl.
    + right. eexists. reflexivity.
    + left. eexists. split; [reflexivity | lia].
  - intros more. unfold after. rewrite foldl_app.
    apply (foldl_step_advances randomUUID call_fn construct_fn more).
Qed.


Section PendingKeys.

Variable randomUUID : nat -> string.
Variable call_fn : nat -> list value -> call_result.
Variable construct_fn : nat -> list value -> completion.

Lemma keeps_keys_refl st : keeps_keys_issued randomUUID st st.
Proof. intros H; exact H. Qed.

Lemma keeps_keys_trans st1 st2 st3 :
  keeps_keys_issued randomUUID st1 st2 -> keeps_keys_issued randomUUID st2 st3 ->
  keeps_keys_issued randomUUID st1 st3.
Proof. unfold keeps_keys_issued. auto. Qed.

Lemma addEventListener_keys r : always (keeps_keys_issued randomUUID) (addEventListener r).
Proof. intros st H; exact H. Qed.

Lemma console_error_keys e : always (keeps_keys_issued randomUUID) (console_error e).
Proof. intros st H; exact H. Qed.

Lemma log_walk_keys obj p : always (keeps_keys_issued randomUUID) (log_walk obj p).
Proof. intros st H; exact H. Qed.

Lemma postMessage_keys ep data : always (keeps_keys_issued randomUUID) (postMessage ep data).
Proof. intros st H. rewrite postMessage_wire. exact H. Qed.

Lemma new_promise_keys : always (keeps_keys_issued randomUUID) new_promise.
Proof. intros st H; exact H. Qed.

Lemma promiseMap_get_keys id : always (keeps_keys_issued randomUUID) (promiseMap_get id).
Proof. intros st H; exact H. Qed.

Lemma call_res_keys p v : always (keeps_keys_issued randomUUID) (call_res p v).
Proof. intros st H; exact H. Qed.

Lemma promiseMap_delete_keys id :
  always (keeps_keys_issued randomUUID) (promiseMap_delete id).
Proof.
  intros st H i p. simpl. destruct (ident_of_value id) as [j |]; [| apply H].
  intros Hp. apply lookup_delete_Some in Hp as [_ Hp]. exact (H i p Hp).
Qed.

Lemma getId_keys : always (keeps_keys_issued randomUUID) (getId randomUUID).
Proof.
  intros st H i p Hp. unfold getId in *.
  destruct (MAX_SAFE_INTEGER - 1000 <? uniqueInRealmId st); simpl in *;
    specialize (H i p Hp); destruct i as [n | s]; simpl in *; try exact H; try lia.
  destruct H as (k & Hk & ->). exists k. split; [lia | reflexivity].
Qed.

(** Allocating an id and storing a promise under it. *)
Lemma issue_keys {A} (k : ident -> nat -> M A) :
  (forall id p, always (keeps_keys_issued randomUUID) (k id p)) ->
  always (keeps_keys_issued randomUUID)
    (id ← getId randomUUID; p ← createPromise id; k id p).
Proof.
  intros Hk st H. unfold_M. unfold createPromise, new_promise, promiseMap_set, getId.
  unfold_M.
  destruct (Z.ltb_spec (MAX_SAFE_INTEGER - 1000) (uniqueInRealmId st)); simpl;
    match goal with |- keys_issued _ (snd (k ?id ?p ?s)) => apply (Hk id p s) end;
    intros i q; simpl; rewrite lookup_insert; case_decide as Hi.
  - intros _. subst i. simpl. exists (uuids_drawn st). split; [lia | reflexivity].
  - intros Hq. specialize (H i q Hq). destruct i as [n | s]; simpl in *; [exact H |].
    destruct H as (j & Hj & ->). exists j. split; [lia | reflexivity].
  - intros _. subst i. simpl. lia.
  - intros Hq. specialize (H i q Hq). destruct i as [n | s]; simpl in *; [lia | exact H].
Qed.

#[local] Hint Resolve addEventListener_keys console_error_keys log_walk_keys
  postMessage_keys new_promise_keys promiseMap_get_keys call_res_keys
  promiseMap_delete_keys getId_keys : always.

Ltac unfold_handlers :=
  unfold server_handler, client_handler, await_call, construct, getKeyChain,
    unwrapArg, wrap, wrapArgs, wrapArg, expose, createChannel, read,
    assertPropertyExists, assertIsFunction, assertValidRPCResponse,
    assertValidRPCCall, assertValidKeyChain.

Lemma walk_keys keyChain :
  forall obj, always (keeps_keys_issued randomUUID) (walk obj keyChain).
Proof.
  induction keyChain as [| p rest IH]; intros obj; simpl; unfold_handlers;
    always_with keeps_keys_refl keeps_keys_trans.
Qed.

#[local] Hint Resolve walk_keys : always.

Lemma proxy_apply_keys ep keyChain args :
  always (keeps_keys_issued randomUUID) (proxy_apply randomUUID ep keyChain args).
Proof.
  unfold proxy_apply. destruct (last_is_then keyChain); apply issue_keys; intros id p;
    unfold_handlers; always_with keeps_keys_refl keeps_keys_trans.
Qed.

Lemma proxy_construct_keys ep keyChain args :
  always (keeps_keys_issued randomUUID) (proxy_construct randomUUID ep keyChain args).
Proof.
  unfold proxy_construct. apply issue_keys; intros id p;
    unfold_handlers; always_with keeps_keys_refl keeps_keys_trans.
Qed.

#[local] Hint Resolve proxy_apply_keys proxy_construct_keys : always.

Lemma step_keys st ev :
  keys_issued randomUUID st ->
  keys_issued randomUUID (step randomUUID call_fn construct_fn st ev).
Proof.
  revert st. destruct ev as [ep | obj ep | ep [kc args | kc args] | ep data | obj ep data];
    simpl; unfold run.
  - change (always (keeps_keys_issued randomUUID) (wrap ep)). unfold_handlers.
    always_with keeps_keys_refl keeps_keys_trans.
  - change (always (keeps_keys_issued randomUUID) (expose obj ep)). unfold_handlers.
    always_with keeps_keys_refl keeps_keys_trans.
  - apply proxy_apply_keys.
  - apply proxy_construct_keys.
  - change (always (keeps_keys_issued randomUUID) (client_handler ep data)).
    unfold_handlers. always_with keeps_keys_refl keeps_keys_trans.
  - change (always (keeps_keys_issued randomUUID)
              (server_handler randomUUID call_fn construct_fn obj ep data)).
    unfold_handlers. always_with keeps_keys_refl keeps_keys_trans.
Qed.

Lemma after_keys evs : keys_issued randomUUID (after randomUUID call_fn construct_fn evs).
Proof.
  unfold after. induction evs as [| ev evs IH] using rev_ind; simpl.
  - intros i p Hp. unfold initial_realm in Hp. cbn [promiseMap] in Hp.
    rewrite lookup_empty in Hp. discriminate.
  - rewrite foldl_app. simpl. apply step_keys, IH.
Qed.

(** Issuing a request never disturbs the pending ones.  In a realm reached
    by any sequence of events, with draws of [randomUUID] that do not
    repeat, the id the next proxy operation takes is the key of no pending
    entry; the operation adds exactly one entry, for its new promise, and
    every entry that was pending stays as it was. *)
Theorem pending_entries_never_overwritten (evs : list event) (ep : endpoint)
      (op : client_op) :
  (forall j k, randomUUID j = randomUUID k -> j = k) ->
  let st := after randomUUID call_fn construct_fn evs in
  let st' := run (perform randomUUID ep op) st in
  exists i,
    next_id randomUUID st = value_of_ident i
    /\ promiseMap st !! i = None
    /\ promiseMap st' = <[i := promises st]> (promiseMap st)
    /\ (forall j p, promiseMap st !! j = Some p -> promiseMap st' !! j = Some p)
    /\ size (promiseMap st') = S (size (promiseMap st)).
Proof.
  intros Hinj st st'.
  destruct (perform_posts randomUUID ep op st)
    as (v & st1 & req & i & Hrun & _ & _ & _ & Hid & Hnext & Hmap & _).
  assert (Hst' : st' = st1) by (unfold st', run; now rewrite Hrun).
  assert (Hfresh : promiseMap st !! i = None).
  { destruct (promiseMap st !! i) as [p |] eqn:Hp; [| reflexivity]. exfalso.
    pose proof (after_keys evs i p Hp) as Hissued. fold st in Hissued.
    rewrite Hid in Hnext. unfold next_id, getId in Hnext.
    destruct (Z.ltb_spec (MAX_SAFE_INTEGER - 1000) (uniqueInRealmId st));
      simpl in Hnext; destruct i as [n | s]; simpl in *; try discriminate.
    - injection Hnext as ->. destruct Hissued as (k & Hk & Heq).
      apply Hinj in Heq. lia.
    - injection Hnext as ->. lia. }
  exists i. rewrite Hst', Hmap.
  split; [congruence |]. split; [exact Hfresh |]. split; [reflexivity |]. split.
  - intros j p Hp. rewrite lookup_insert_ne; [exact Hp | congruence].
  - apply map_size_insert_None, Hfresh.
Qed.

End PendingKeys.

(** ** Sub-channels: round trip and isolation *)





(** ** The identity of proxies *)

Section ProxyIdentity.

Import ProxyHeap.

Lemma get_trap_stored (h : list node) p n k o :
  h !! p = Some n -> getters n !! k = Some o ->
  get_trap p (KString k) h = (Some o, h).
Proof. intros Hp Hk. unfold get_trap, mapHelper. now rewrite Hp, Hk. Qed.

Lemma get_trap_new (h : list node) p n k :
  h !! p = Some n -> getters n !! k = None ->
  get_trap p (KString k) h =
  (Some (List.length h),
   alter (fun n' => Node (keyChain n') (<[k := List.length h]> (getters n'))) p
         (h ++ [Node (keyChain n ++ [k]) ∅])%list).
Proof. intros Hp Hk. unfold get_trap, mapHelper, createProxy. now rewrite Hp, Hk. Qed.

Lemma well_formed_root : well_formed root_heap.
Proof.
  intros p n k o Hp Hk. destruct p as [| p]; simpl in Hp; [| discriminate].
  injection Hp as <-. simpl in Hk. rewrite lookup_empty in Hk. discriminate.
Qed.

Lemma well_formed_new (h : list node) p n k :
  well_formed h -> h !! p = Some n -> getters n !! k = None ->
  well_formed
    (alter (fun n' => Node (keyChain n') (<[k := List.length h]> (getters n'))) p
           (h ++ [Node (keyChain n ++ [k]) ∅])%list).
Proof.
  intros Hwf Hp Hk.
  set (f := fun n' => Node (keyChain n') (<[k := List.length h]> (getters n'))).
  set (new := Node (keyChain n ++ [k])%list ∅).
  assert (Hlt : (p < List.length h)%nat) by (eapply lookup_lt_Some; exact Hp).
  assert (Hold : forall o n', h !! o = Some n' ->
            exists n1, alter f p (h ++ [new])%list !! o = Some n1
                       /\ keyChain n1 = keyChain n').
  { intros o n' Ho. destruct (decide (o = p)) as [-> | Hne].
    - exists (f n'). rewrite list_lookup_alter_eq, lookup_app_l, Ho by exact Hlt.
      split; reflexivity.
    - exists n'. rewrite list_lookup_alter_ne by congruence.
      rewrite lookup_app_l by (eapply lookup_lt_Some; exact Ho). auto. }
  intros q nq k0 o0 Hq Hk0.
  destruct (decide (q = p)) as [-> | Hne].
  - rewrite list_lookup_alter_eq, lookup_app_l, Hp in Hq by exact Hlt.
    injection Hq as <-. simpl in *.
    rewrite lookup_insert in Hk0. case_decide as Hkk.
    + injection Hk0 as <-. subst k0. exists new.
      rewrite list_lookup_alter_ne by lia.
      rewrite lookup_app_r by lia. rewrite Nat.sub_diag. split; reflexivity.
    + destruct (Hwf p n k0 o0 Hp Hk0) as (n' & Ho & Hchain).
      destruct (Hold o0 n' Ho) as (n1 & Hn1 & Hc1). exists n1.
      split; [exact Hn1 | congruence].
  - rewrite list_lookup_alter_ne in Hq by congruence.
    destruct (decide (q < List.length h)%nat) as [Hq' | Hq'].
    + rewrite lookup_app_l in Hq by exact Hq'.
      destruct (Hwf q nq k0 o0 Hq Hk0) as (n' & Ho & Hchain).
      destruct (Hold o0 n' Ho) as (n1 & Hn1 & Hc1). exists n1.
      split; [exact Hn1 | congruence].
    + rewrite lookup_app_r in Hq by lia.
      destruct (q - List.length h)%nat as [| d]; simpl in Hq; [| discriminate].
      injection Hq as <-. simpl in Hk0. rewrite lookup_empty in Hk0. discriminate.
Qed.

(** The [get] trap on a well-formed heap: for the string key [k] it answers
    with a proxy whose chain is the chain of [p] followed by [k]; asked
    again it answers with the same proxy and creates nothing; for another
    key it answers with another proxy; the chains of the existing proxies
    never change; for a symbol it answers [null] and changes nothing. *)
Lemma get_trap_identity (h : list node) (p : nat) (n : node) (k : string) :
  well_formed h ->
  h !! p = Some n ->
  let r1 := fst (get_trap p (KString k) h) in
  let h1 := snd (get_trap p (KString k) h) in
  (exists o n', r1 = Some o /\ h1 !! o = Some n' /\ keyChain n' = (keyChain n ++ [k])%list)
  /\ get_trap p (KString k) h1 = (r1, h1)
  /\ (forall k', k' <> k -> fst (get_trap p (KString k') h1) <> r1)
  /\ (forall q nq, h !! q = Some nq ->
        exists nq', h1 !! q = Some nq' /\ keyChain nq' = keyChain nq)
  /\ well_formed h1
  /\ (forall s, get_trap p (KSymbol s) h = (None, h)).
Proof.
  intros Hwf Hp r1 h1.
  assert (Hlt : (p < List.length h)%nat) by (eapply lookup_lt_Some; exact Hp).
  assert (Hcases :
    exists o n1 n',
      r1 = Some o /\ h1 !! p = Some n1 /\ keyChain n1 = keyChain n
      /\ getters n1 !! k = Some o
      /\ h1 !! o = Some n' /\ keyChain n' = (keyChain n ++ [k])%list
      /\ well_formed h1
      /\ (forall q nq, h !! q = Some nq ->
            exists nq', h1 !! q = Some nq' /\ keyChain nq' = keyChain nq)).
  { subst r1 h1. destruct (getters n !! k) as [o |] eqn:Hk.
    - rewrite (get_trap_stored h p n k o Hp Hk). simpl.
      destruct (Hwf p n k o Hp Hk) as (n' & Ho & Hchain).
      exists o, n, n'. repeat split; eauto.
    - rewrite (get_trap_new h p n k Hp Hk). simpl.
      set (f := fun n' => Node (keyChain n') (<[k := List.length h]> (getters n'))).
      exists (List.length h), (f n), (Node (keyChain n ++ [k])%list ∅).
      split; [reflexivity |].
      split; [now rewrite list_lookup_alter_eq, lookup_app_l, Hp by exact Hlt |].
      split; [reflexivity |].
      split; [simpl; apply lookup_insert_eq |].
      split; [rewrite list_lookup_alter_ne by lia; rewrite lookup_app_r by lia;
              now rewrite Nat.sub_diag |].
      split; [reflexivity |].
      split; [apply well_formed_new; assumption |].
      intros q nq Hq. destruct (decide (q = p)) as [-> | Hne].
      + exists (f nq). rewrite list_lookup_alter_eq, lookup_app_l, Hq by exact Hlt.
        split; reflexivity.
      + exists nq. rewrite list_lookup_alter_ne by congruence.
        rewrite lookup_app_l by (eapply lookup_lt_Some; exact Hq). auto. }
  destruct Hcases as (o & n1 & n' & Hr1 & Hp1 & Hc1 & Hg1 & Ho & Hchain & Hwf1 & Hkeep).
  split; [exists o, n'; auto |].
  split; [rewrite Hr1; apply (get_trap_stored h1 p n1 k o Hp1 Hg1) |].
  split.
  - intros k' Hne. rewrite Hr1.
    destruct (getters n1 !! k') as [o' |] eqn:Hk'.
    + rewrite (get_trap_stored h1 p n1 k' o' Hp1 Hk'). simpl. intros [= ->].
      destruct (Hwf1 p n1 k' o Hp1 Hk') as (n'' & Ho' & Hchain').
      rewrite Ho in Ho'. injection Ho' as <-. rewrite Hchain, Hc1 in Hchain'.
      apply app_inv_head in Hchain'. congruence.
    + rewrite (get_trap_new h1 p n1 k' Hp1 Hk'). simpl. intros [= Heq].
      apply lookup_lt_Some in Ho. lia.
  - split; [exact Hkeep |]. split; [exact Hwf1 | reflexivity].
Qed.

Lemma Get_string (p : nat) (k : string) (h : list node) :
  Get p (KString k) h =
  (if String.eqb k "prototype" then TypeError else Value (fst (get_trap p (KString k) h)),
   snd (get_trap p (KString k) h)).
Proof.
  unfold Get. destruct (get_trap p (KString k) h) as [o h'].
  destruct (String.eqb k "prototype"); reflexivity.
Qed.

(** Proxy identity.  On a well-formed heap (the heap after [wrap], and
    every heap reached from it by property reads), reading a string
    property [k] other than [prototype] of the proxy [p] returns a proxy
    whose chain is the chain of [p] followed by [k]; reading it again
    returns the same proxy and creates nothing; another key does not give
    that proxy.  Reading [prototype] is a [TypeError], every time.  No read
    changes the chain of an existing proxy, and a symbol key gives [null]
    and changes nothing. *)
Theorem proxy_property_identity (h : list node) (p : nat) (n : node) (k : string) :
  well_formed h ->
  h !! p = Some n ->
  let r1 := fst (Get p (KString k) h) in
  let h1 := snd (Get p (KString k) h) in
  (k <> "prototype" ->
     (exists o n', r1 = Value (Some o) /\ h1 !! o = Some n'
                   /\ keyChain n' = (keyChain n ++ [k])%list)
     /\ Get p (KString k) h1 = (r1, h1)
     /\ (forall k', k' <> k -> fst (Get p (KString k') h1) <> r1))
  /\ (k = "prototype" -> r1 = TypeError /\ fst (Get p (KString k) h1) = TypeError)
  /\ (forall q nq, h !! q = Some nq ->
        exists nq', h1 !! q = Some nq' /\ keyChain nq' = keyChain nq)
  /\ well_formed h1
  /\ (forall s, Get p (KSymbol s) h = (Value None, h)).
Proof.
  intros Hwf Hp r1 h1.
  destruct (get_trap_identity h p n k Hwf Hp)
    as ((o & n' & Ho & Hn' & Hchain) & Hagain & Hother & Hkeep & Hwf1 & Hsym).
  assert (Hh1 : h1 = snd (get_trap p (KString k) h))
    by (unfold h1; rewrite Get_string; reflexivity).
  assert (Hr1 : r1 = if String.eqb k "prototype" then TypeError
                     else Value (fst (get_trap p (KString k) h)))
    by (unfold r1; rewrite Get_string; reflexivity).
  clearbody r1 h1. subst h1.
  split.
  { intros Hk. apply String.eqb_neq in Hk. rewrite Hk in Hr1. subst r1.
    split; [exists o, n'; rewrite Ho; auto |].
    split; [rewrite Get_string, Hk, Hagain; reflexivity |].
    intros k' Hne. rewrite Get_string. simpl.
    destruct (String.eqb k' "prototype"); [discriminate |].
    intros [= Heq]. exact (Hother k' Hne Heq). }
  split.
  { intros ->. subst r1. split; [reflexivity |]. rewrite Get_string. reflexivity. }
  split; [exact Hkeep |]. split; [exact Hwf1 |].
  intros s. reflexivity.
Qed.

End ProxyIdentity.

(** ** Endpoint objects: listener sets, forwarding and logging *)

Section EndpointObjectProperties.

Import EndpointObjects.

Lemma for_each_nil (f : Listener -> net -> option net) st : for_each f [] st = Some st.
Proof. reflexivity. Qed.

Lemma for_each_cons (f : Listener -> net -> option net) l ls st st' :
  f l st = Some st' -> for_each f (l :: ls) st = for_each f ls st'.
Proof. intros H. unfold for_each. simpl. now rewrite H. Qed.

Lemma for_each_app (f : Listener -> net -> option net) l1 l2 st st' :
  for_each f l1 st = Some st' -> for_each f (l1 ++ l2)%list st = for_each f l2 st'.
Proof. intros H. unfold for_each in *. now rewrite foldl_app, H. Qed.

Lemma for_each_users (fuel : nat) (data : value) (us : list nat) (st : net) :
  for_each (fun l => call (S fuel) l data) (UserListener <$> us) st =
  Some (Net (created st) (transports st) (channels st) (sent st) (logs st)
            (calls st ++ ((fun u => (u, data)) <$> us))%list).
Proof.
  revert st. induction us as [| u us IH]; intros st.
  - simpl. rewrite for_each_nil, app_nil_r. now destruct st.
  - rewrite fmap_cons.
    erewrite for_each_cons by (simpl; reflexivity).
    rewrite IH. simpl. now rewrite <- app_assoc.
Qed.

Lemma set_has_fresh (s : list Listener) (l : Listener) :
  Forall (fun x => identity x <> identity l) s -> set_has s l = false.
Proof.
  induction 1 as [| x s Hx _ IH]; [reflexivity |].
  unfold set_has in *. simpl. rewrite IH, bool_decide_eq_false_2 by exact Hx.
  reflexivity.
Qed.

Lemma set_add_fresh (s : list Listener) (l : Listener) :
  Forall (fun x => identity x <> identity l) s -> set_add s l = (s ++ [l])%list.
Proof. intros H. unfold set_add. now rewrite set_has_fresh. Qed.


Lemma set_delete_fresh (s : list Listener) (l : Listener) :
  Forall (fun x => identity x <> identity l) s -> set_delete s l = s.
Proof.
  induction 1 as [| x s Hx _ IH]; [reflexivity |].
  unfold set_delete in *. simpl. rewrite bool_decide_eq_false_2 by exact Hx.
  simpl. now rewrite IH.
Qed.

Lemma set_delete_added (s : list Listener) (l : Listener) :
  Forall (fun x => identity x <> identity l) s -> set_delete (s ++ [l]) l = s.
Proof.
  intros H. unfold set_delete. rewrite List.filter_app. simpl.
  rewrite bool_decide_eq_true_2 by reflexivity. simpl. rewrite app_nil_r.
  now apply set_delete_fresh.
Qed.

Lemma users_not_closures (us : list nat) (l : Listener) (id : nat) :
  identity l = inr id ->
  Forall (fun x => identity x <> identity l) (UserListener <$> us).
Proof.
  intros Hl. apply Forall_fmap, Forall_forall. intros u _. simpl.
  rewrite Hl. discriminate.
Qed.

Lemma other_users (us : list nat) (u : nat) :
  u ∉ us ->
  Forall (fun x => identity x <> identity (UserListener u)) (UserListener <$> us).
Proof.
  intros Hu. apply Forall_fmap, Forall_forall. intros u' Hin. simpl.
  intros [= ->]. contradiction.
Qed.


(** Posting never touches a listener set, a user listener or the creation
    counter, and what it hands to the transports does not depend on the
    log. *)
Lemma post_frame :
  forall (e : PostMessageEndpoint) (data : value) (st : net),
    created (postMessage e data st) = created st
    /\ transports (postMessage e data st) = transports st
    /\ channels (postMessage e data st) = channels st
    /\ calls (postMessage e data st) = calls st.
Proof.
  fix IH 1. intros e data st. destruct e as [n | c e' name | p li lo e']; simpl.
  - auto.
  - apply IH.
  - destruct (IH e' data (if lo then logger (p +:+ " [OUT]:") data st else st))
      as (H1 & H2 & H3 & H4).
    rewrite H1, H2, H3, H4. now destruct lo.
Qed.

Lemma post_sent :
  forall (e : PostMessageEndpoint) (data : value) (st st' : net),
    sent st = sent st' ->
    sent (postMessage e data st) = sent (postMessage e data st').
Proof.
  fix IH 1. intros e data st st' H. destruct e as [n | c e' name | p li lo e']; simpl.
  - now rewrite H.
  - now apply IH.
  - apply IH. now destruct lo.
Qed.

Lemma post_logs :
  forall (e : PostMessageEndpoint) (data : value) (st : net),
    exists rest, logs (postMessage e data st) = (logs st ++ rest)%list.
Proof.
  fix IH 1. intros e data st. destruct e as [n | c e' name | p li lo e']; simpl.
  - exists []. now rewrite app_nil_r.
  - apply IH.
  - destruct (IH e' data (if lo then logger (p +:+ " [OUT]:") data st else st))
      as [rest Hrest].
    rewrite Hrest. destruct lo; simpl.
    + exists ((p +:+ " [OUT]:", data) :: rest). now rewrite <- app_assoc.
    + now exists rest.
Qed.



Lemma add_to_transport n l st :
  addEventListener (Transport n) "message" l st =
  Net (created st)
      (<[n := set_add (default [] (transports st !! n)) l]> (transports st))
      (channels st) (sent st) (logs st) (calls st).
Proof. reflexivity. Qed.

Lemma remove_from_transport n l st :
  removeEventListener (Transport n) "message" l st =
  Net (created st)
      (<[n := set_delete (default [] (transports st !! n)) l]> (transports st))
      (channels st) (sent st) (logs st) (calls st).
Proof. reflexivity. Qed.

Lemma add_logged p lo e l st :
  addEventListener (LoggingEndpoint p true lo e) "message" l st =
  addEventListener e "message" (loggingListener (created st) p l) (snd (fresh st)).
Proof. reflexivity. Qed.

Lemma add_unlogged p lo e l st :
  addEventListener (LoggingEndpoint p false lo e) "message" l st =
  addEventListener e "message" l st.
Proof. reflexivity. Qed.









(** [connectEndpoints] between two transports that so far have user
    listeners only.  A message arriving on either transport is, after the
    listeners already there, handed unchanged to the other transport, and
    nothing is logged or subscribed; the cleanup function puts both
    listener sets back as they were. *)
Theorem connectEndpoints_forwards_both_ways (st : net) (a b : nat) (ua ub : list nat)
    (data : value) (fuel : nat) :
  a <> b ->
  transports st !! a = Some (UserListener <$> ua) ->
  transports st !! b = Some (UserListener <$> ub) ->
  let ls := fst (connectEndpoints (Transport a) (Transport b) st) in
  let st1 := snd (connectEndpoints (Transport a) (Transport b) st) in
  deliver (S fuel) a data st1
  = Some (Net (created st1) (transports st1) (channels st1)
              (sent st1 ++ [(b, data)])%list (logs st1)
              (calls st1 ++ ((fun u => (u, data)) <$> ua))%list)
  /\ deliver (S fuel) b data st1
     = Some (Net (created st1) (transports st1) (channels st1)
                 (sent st1 ++ [(a, data)])%list (logs st1)
                 (calls st1 ++ ((fun u => (u, data)) <$> ub))%list)
  /\ transports (cleanup (Transport a) (Transport b) ls st1) = transports st
  /\ deliver (S fuel) a data (cleanup (Transport a) (Transport b) ls st1)
     = Some (Net (S (S (created st))) (transports st) (channels st) (sent st) (logs st)
                 (calls st ++ ((fun u => (u, data)) <$> ua))%list).
Proof.
  intros Hab Ha Hb ls st1.
  set (listenerA := listenerTo (created st) (Transport b)).
  set (listenerB := listenerTo (S (created st)) (Transport a)).
  assert (HfA : Forall (fun x => identity x <> identity listenerA) (UserListener <$> ua))
    by (eapply users_not_closures; reflexivity).
  assert (HfB : Forall (fun x => identity x <> identity listenerB) (UserListener <$> ub))
    by (eapply users_not_closures; reflexivity).
  assert (Hls : ls = (listenerA, listenerB)) by reflexivity.
  assert (Hst1 : st1 =
    Net (S (S (created st)))
        (<[b := ((UserListener <$> ub) ++ [listenerB])%list]>
           (<[a := ((UserListener <$> ua) ++ [listenerA])%list]> (transports st)))
        (channels st) (sent st) (logs st) (calls st)).
  { subst st1. unfold connectEndpoints. cbn [snd fst fresh created].
    rewrite !add_to_transport. cbn [created transports channels sent logs calls].
    rewrite lookup_insert_ne by exact Hab. rewrite Ha, Hb. cbn [default from_option id].
    fold listenerA listenerB. now rewrite !set_add_fresh by assumption. }
  assert (Hclean : cleanup (Transport a) (Transport b) ls st1 =
    Net (S (S (created st))) (transports st) (channels st) (sent st) (logs st) (calls st)).
  { rewrite Hls, Hst1. unfold cleanup. cbn [fst snd].
    rewrite (remove_from_transport a listenerA).
    cbn [created transports channels sent logs calls].
    rewrite (lookup_insert_ne _ b a) by congruence. rewrite lookup_insert_eq.
    cbn [default from_option id]. rewrite (set_delete_added _ listenerA) by assumption.
    rewrite (remove_from_transport b listenerB).
    cbn [created transports channels sent logs calls].
    rewrite (lookup_insert_ne _ a b) by congruence. rewrite lookup_insert_eq.
    cbn [default from_option id]. rewrite (set_delete_added _ listenerB) by assumption.
    f_equal.
    rewrite (insert_insert_ne _ a b) by congruence.
    rewrite !insert_insert_eq.
    rewrite (insert_id _ a) by exact Ha. now apply insert_id. }
  clearbody ls st1. subst st1.
  split.
  { unfold deliver. cbn [transports].
    rewrite lookup_insert_ne, lookup_insert_eq by congruence. cbn [default from_option id].
    erewrite for_each_app by apply for_each_users.
    reflexivity. }
  split.
  { unfold deliver. cbn [transports]. rewrite lookup_insert_eq. cbn [default from_option id].
    erewrite for_each_app by apply for_each_users.
    reflexivity. }
  rewrite Hclean. split; [reflexivity |].
  unfold deliver. cbn [transports]. rewrite Ha. cbn [default from_option id].
  rewrite for_each_users. reflexivity.
Qed.

(** Posting through a logging endpoint hands the transports exactly what
    posting to the wrapped endpoint hands them, and touches no listener
    set; with [logOutgoing] the first thing it does is log the data under
    "<prefix> [OUT]:", without it the wrapper is the wrapped endpoint. *)
Theorem withLogging_posts_unchanged (endpoint : PostMessageEndpoint) (prefix : string)
    (logIncoming logOutgoing : bool) (data : value) (st : net) :
  let st' := postMessage (withLogging endpoint prefix logIncoming logOutgoing) data st in
  sent st' = sent (postMessage endpoint data st)
  /\ transports st' = transports st
  /\ channels st' = channels st
  /\ calls st' = calls st
  /\ (if logOutgoing
      then exists rest, logs st' = (logs st ++ (prefix +:+ " [OUT]:", data) :: rest)%list
      else st' = postMessage endpoint data st).
Proof.
  intros st'. subst st'. unfold withLogging. cbn [postMessage].
  destruct (post_frame endpoint data
              (if logOutgoing then logger (prefix +:+ " [OUT]:") data st else st))
    as (_ & H2 & H3 & H4).
  split; [apply post_sent; now destruct logOutgoing |].
  split; [rewrite H2; now destruct logOutgoing |].
  split; [rewrite H3; now destruct logOutgoing |].
  split; [rewrite H4; now destruct logOutgoing |].
  destruct logOutgoing; [| reflexivity].
  destruct (post_logs endpoint data (logger (prefix +:+ " [OUT]:") data st))
    as [rest Hrest].
  exists rest. rewrite Hrest. simpl. now rewrite <- app_assoc.
Qed.

(** Listening through a logging endpoint over a transport.  With
    [logIncoming], a message arriving on the transport is logged under
    "<prefix> [IN]:" and then given to the listener; the listener that is
    subscribed is a wrapper, so [removeEventListener] with the original
    listener removes nothing and the listener keeps being called.  Without
    [logIncoming] the listener itself is subscribed and
    [removeEventListener] puts the listener set back as it was. *)
Theorem withLogging_listener_is_wrapped (st : net) (n : nat) (us : list nat) (u : nat)
    (prefix : string) (logOutgoing : bool) (data : value) (fuel : nat) :
  transports st !! n = Some (UserListener <$> us) ->
  u ∉ us ->
  let logged := withLogging (Transport n) prefix true logOutgoing in
  let plain := withLogging (Transport n) prefix false logOutgoing in
  let st1 := addEventListener logged "message" (UserListener u) st in
  deliver (S (S fuel)) n data st1
  = Some (Net (created st1) (transports st1) (channels st1) (sent st1)
              (logs st1 ++ [(prefix +:+ " [IN]:", data)])%list
              (calls st1 ++ ((fun x => (x, data)) <$> us) ++ [(u, data)])%list)
  /\ removeEventListener logged "message" (UserListener u) st1 = st1
  /\ removeEventListener plain "message" (UserListener u)
       (addEventListener plain "message" (UserListener u) st) = st.
Proof.
  intros Hn Hu logged plain st1.
  set (wrapper := loggingListener (created st) prefix (UserListener u)).
  assert (Hfw : Forall (fun x => identity x <> identity wrapper) (UserListener <$> us))
    by (eapply users_not_closures; reflexivity).
  pose proof (other_users us u Hu) as Hfu.
  assert (Hst1 : st1 =
    Net (S (created st))
        (<[n := ((UserListener <$> us) ++ [wrapper])%list]> (transports st))
        (channels st) (sent st) (logs st) (calls st)).
  { subst st1 logged. unfold withLogging. rewrite add_logged.
    cbn [fresh fst snd]. rewrite add_to_transport.
    cbn [created transports channels sent logs calls]. rewrite Hn. cbn [default from_option id].
    fold wrapper. now rewrite set_add_fresh by assumption. }
  clearbody st1. subst st1.
  split.
  { unfold deliver. cbn [transports]. rewrite lookup_insert_eq. cbn [default from_option id].
    erewrite for_each_app by apply for_each_users.
    unfold wrapper. erewrite for_each_cons by (simpl; reflexivity).
    rewrite for_each_nil. simpl. now rewrite <- app_assoc. }
  split.
  { subst logged. unfold withLogging.
    change (removeEventListener (LoggingEndpoint prefix true logOutgoing (Transport n)))
      with (removeEventListener (Transport n)).
    rewrite remove_from_transport.
    cbn [created transports channels sent logs calls].
    rewrite lookup_insert_eq. cbn [default from_option id].
    assert (Hkeep : set_delete ((UserListener <$> us) ++ [wrapper]) (UserListener u)
                    = ((UserListener <$> us) ++ [wrapper])%list).
    { apply set_delete_fresh. apply Forall_app. split; [exact Hfu |].
      constructor; [| constructor]. simpl. discriminate. }
    rewrite Hkeep. now rewrite insert_insert_eq. }
  subst plain. unfold withLogging. rewrite add_unlogged.
  change (removeEventListener (LoggingEndpoint prefix false logOutgoing (Transport n)))
    with (removeEventListener (Transport n)).
  rewrite remove_from_transport, add_to_transport.
  cbn [created transports channels sent logs calls].
  rewrite lookup_insert_eq, Hn. cbn [default from_option id].
  rewrite set_add_fresh, set_delete_added by assumption.
  rewrite insert_insert_eq, insert_id by exact Hn. now destruct st.
Qed.

End EndpointObjectProperties.

(** ** Channel tags are truthy *)

(** The tag of the channel of a wrapped value is an id of [getId].  Along
    every sequence of events the next id is a positive number or, when
    [crypto.randomUUID] never returns the empty string, a non-empty string:
    a truthy value.  So every envelope of such a channel is skipped by the
    dispatcher and the client handler listening to the same endpoint,
    whatever the payload and whatever realm they run in. *)
Theorem wrapped_traffic_skips_bare_handlers randomUUID call_fn construct_fn
    (evs : list event) (obj : value) (ep : endpoint) (payload : value) (st : realm) :
  (forall k, randomUUID k <> "") ->
  let tag := next_id randomUUID (after randomUUID call_fn construct_fn evs) in
  truthy tag = true
  /\ server_handler randomUUID call_fn construct_fn obj ep (channel_message tag payload) st
     = (Done tt, st)
  /\ client_handler ep (channel_message tag payload) st = (Done tt, st).
Proof.
  intros Hne tag.
  assert (Ht : truthy tag = true).
  { subst tag.
    pose proof (after_in_range randomUUID call_fn construct_fn evs) as H.
    unfold next_id, getId, counter_in_range in *.
    destruct (Z.ltb_spec (MAX_SAFE_INTEGER - 1000)
                (uniqueInRealmId (after randomUUID call_fn construct_fn evs))); simpl.
    - apply negb_true_iff, String.eqb_neq, Hne.
    - apply negb_true_iff, Z.eqb_neq. lia. }
  split; [exact Ht |].
  clearbody tag.
  assert (Hc : truthy (get (channel_message tag payload) "channel") = true) by exact Ht.
  unfold server_handler, client_handler.
  rewrite Hc. simpl. rewrite ?andb_false_r. split; reflexivity.
Qed.

(** * Instances of the further properties on the worked host *)

Lemma steps_ok_single (obj : value) (k : string) :
  truthy obj = true -> is_object obj = true -> hasOwnProperty obj k = true ->
  steps_ok obj [k].
Proof.
  intros H1 H2 H3. apply steps_ok_cons. split; [auto |]. apply steps_ok_nil.
Qed.



Lemma bare_await_request (id : Z) (ks : list string) :
  bare_request (await_request (VNum id) ks) "await" (VNum id) ks.
Proof. repeat split; try reflexivity. discriminate. Qed.


(** The chain ["add"] from the scenario root reaches the function. *)
Lemma getKeyChain_own_properties_witness :
  fst (getKeyChain scenario_root (keyChain_value ["add"]) initial_realm) = Done (VFun 0).
Proof.
  destruct (getKeyChain_own_properties scenario_root ["add"] initial_realm) as (H & _);
    [reflexivity |].
  apply H. split; [| reflexivity].
  apply steps_ok_single; reflexivity.
Defined.




(** [await proxy.add] is answered with a handle for the function. *)
Lemma dispatcher_await_reply_witness :
  posted (run (scenario_server scenario_root (EBase 0) (await_request (VNum 7) ["add"]))
              initial_realm)
  = [wire (EBase 0) (response_message (VNum 7) (wraped (VNum 1)))].
Proof.
  destruct (dispatcher_await_reply scenario_randomUUID scenario_call scenario_construct
              scenario_root (EBase 0) (await_request (VNum 7) ["add"]) (VNum 7)
              ["add"] initial_realm)
    as (_ & _ & _ & _ & H).
  - apply bare_await_request.
  - reflexivity.
  - apply steps_ok_single; reflexivity.
  - destruct H as [Hp _]; [reflexivity |]. exact Hp.
Defined.


(** [proxy.add(2, 3)] from a fresh client to a fresh server. *)
Lemma rpc_call_round_trip_witness :
  exists i,
    settled (run (client_handler (EBase 0) (response_message (value_of_ident i) (any (VNum 5))))
                 (run (proxy_apply scenario_randomUUID (EBase 0) ["add"] [VNum 2; VNum 3])
                      initial_realm))
    = [(0%nat, Fulfilled (VNum 5))].
Proof.
  destruct (rpc_call_round_trip scenario_randomUUID scenario_randomUUID scenario_call
              scenario_construct (EBase 0) (EBase 1) scenario_root ["add"] 0%nat
              [VNum 2; VNum 3] (VNum 5) initial_realm initial_realm)
    as (i & _ & _ & _ & _ & Hs & _).
  - reflexivity.
  - reflexivity.
  - apply steps_ok_single; reflexivity.
  - reflexivity.
  - repeat constructor.
  - reflexivity.
  - reflexivity.
  - exists i. exact Hs.
Defined.

(** [await proxy.version] on a root whose [version] is 3. *)
Lemma rpc_await_round_trip_witness :
  exists i,
    settled (run (client_handler (EBase 0) (response_message (value_of_ident i) (any (VNum 3))))
                 (run (proxy_apply scenario_randomUUID (EBase 0) ["version"; "then"] [])
                      initial_realm))
    = [(0%nat, Fulfilled (VNum 3))].
Proof.
  destruct (rpc_await_round_trip scenario_randomUUID scenario_randomUUID scenario_call
              scenario_construct (EBase 0) (EBase 1) (VObj [("version", VNum 3)])
              ["version"] [] initial_realm initial_realm)
    as (i & _ & _ & _ & Hs & _).
  - reflexivity.
  - apply steps_ok_single; reflexivity.
  - reflexivity.
  - exists i. exact Hs.
Defined.

(** The function [add] passed as a callback and called with 2 and 3. *)
Lemma callback_round_trip_witness :
  exists c,
    fst (wrapArg scenario_randomUUID (VFun 0) (EBase 0) false initial_realm)
    = Done (wraped (value_of_ident c))
    /\ fst (unwrapArg (wraped (value_of_ident c)) (EBase 1) initial_realm)
       = Done (VProxy (EChan (EBase 1) (value_of_ident c)) []).
Proof.
  destruct (callback_round_trip scenario_randomUUID scenario_randomUUID scenario_call
              scenario_construct (EBase 0) (EBase 1) 0%nat [VNum 2; VNum 3] (VNum 5)
              initial_realm initial_realm)
    as (c & j & H1 & _ & H3 & _).
  - repeat constructor.
  - reflexivity.
  - reflexivity.
  - exists c. split; [exact H1 | exact H3].
Defined.

(** A second operation after [proxy.add(2, 3)] adds one entry. *)
Lemma pending_entries_never_overwritten_witness :
  let st := after scenario_randomUUID scenario_call scenario_construct
              [EvOperate (EBase 0) (OpApply ["add"] [VNum 2; VNum 3])] in
  size (promiseMap (run (perform scenario_randomUUID (EBase 0) (OpApply ["boom"] [])) st))
  = S (size (promiseMap st)).
Proof.
  destruct (pending_entries_never_overwritten scenario_randomUUID scenario_call
              scenario_construct
              [EvOperate (EBase 0) (OpApply ["add"] [VNum 2; VNum 3])]
              (EBase 0) (OpApply ["boom"] []) scenario_randomUUID_inj)
    as (i & _ & _ & _ & _ & Hsize).
  exact Hsize.
Defined.


(** Reading [math] twice on a fresh root proxy. *)
Lemma proxy_property_identity_witness :
  ProxyHeap.Get 0 (ProxyHeap.KString "math")
    (snd (ProxyHeap.Get 0 (ProxyHeap.KString "math") ProxyHeap.root_heap))
  = ProxyHeap.Get 0 (ProxyHeap.KString "math") ProxyHeap.root_heap.
Proof.
  destruct (proxy_property_identity ProxyHeap.root_heap 0 (ProxyHeap.Node [] ∅) "math")
    as (H & _).
  - exact well_formed_root.
  - reflexivity.
  - destruct H as (_ & Hagain & _); [discriminate |].
    rewrite Hagain. symmetry. apply surjective_pairing.
Defined.




(** Transports 0 and 1, each with one user listener, connected. *)
Lemma connectEndpoints_forwards_both_ways_witness :
  let st := EndpointObjects.addEventListener (EndpointObjects.Transport 1) "message"
              (EndpointObjects.UserListener 8)
              (EndpointObjects.addEventListener (EndpointObjects.Transport 0) "message"
                 (EndpointObjects.UserListener 7) EndpointObjects.empty_net) in
  let st1 := snd (EndpointObjects.connectEndpoints (EndpointObjects.Transport 0)
                    (EndpointObjects.Transport 1) st) in
  EndpointObjects.sent <$> EndpointObjects.deliver 1 0 (VStr "ping") st1
  = Some [(1%nat, VStr "ping")].
Proof.
  destruct (connectEndpoints_forwards_both_ways
              (EndpointObjects.addEventListener (EndpointObjects.Transport 1) "message"
                 (EndpointObjects.UserListener 8)
                 (EndpointObjects.addEventListener (EndpointObjects.Transport 0) "message"
                    (EndpointObjects.UserListener 7) EndpointObjects.empty_net))
              0%nat 1%nat [7%nat] [8%nat] (VStr "ping") 0%nat)
    as (H & _).
  - discriminate.
  - reflexivity.
  - reflexivity.
  - cbv zeta. rewrite H. reflexivity.
Defined.

(** A user listener subscribed through a logging endpoint over transport 0,
    which already has another user listener. *)
Lemma withLogging_listener_is_wrapped_witness :
  let st := EndpointObjects.addEventListener (EndpointObjects.Transport 0) "message"
              (EndpointObjects.UserListener 7) EndpointObjects.empty_net in
  let logged := EndpointObjects.withLogging (EndpointObjects.Transport 0) "net" true true in
  let st1 := EndpointObjects.addEventListener logged "message"
               (EndpointObjects.UserListener 8) st in
  EndpointObjects.removeEventListener logged "message" (EndpointObjects.UserListener 8) st1
  = st1.
Proof.
  destruct (withLogging_listener_is_wrapped
              (EndpointObjects.addEventListener (EndpointObjects.Transport 0) "message"
                 (EndpointObjects.UserListener 7) EndpointObjects.empty_net)
              0%nat [7%nat] 8%nat "net" true (VStr "ping") 0%nat)
    as (_ & H & _).
  - reflexivity.
  - intros Hin. apply list_elem_of_singleton in Hin. discriminate.
  - exact H.
Defined.

(** The tag drawn after one operation of the scenario client. *)
Lemma wrapped_traffic_skips_bare_handlers_witness :
  let tag := next_id scenario_randomUUID
               (after scenario_randomUUID scenario_call scenario_construct
                  [EvOperate (EBase 0) (OpApply ["add"] [VNum 2; VNum 3])]) in
  client_handler (EBase 0) (channel_message tag (call_request (VNum 1) [] [])) initial_realm
  = (Done tt, initial_realm).
Proof.
  destruct (wrapped_traffic_skips_bare_handlers scenario_randomUUID scenario_call
              scenario_construct
              [EvOperate (EBase 0) (OpApply ["add"] [VNum 2; VNum 3])]
              scenario_root (EBase 0) (call_request (VNum 1) [] []) initial_realm)
    as (_ & _ & H).
  - intros k. unfold scenario_randomUUID. discriminate.
  - exact H.
Defined.
